(** * PythonAnalyzer: the control-flow diagram builder of [main.py]

    A shallow embedding of [generate_cfg], its helper [add_cfg_node] and the
    command-line entry point [main], together with the parts of Python's
    [ast] module and of the [graphviz] package the program calls. *)

From stdpp Require Import gmap strings list fin_maps pretty.

Open Scope Z_scope.
Set Warnings "-register-all".

(** ** Python's [ast] objects *)

Module ast.

(** A field of a generic node: another node, a list of nodes, or any
    other value (identifier, number, [None]), kept by its [repr]. *)
Inductive field (N : Type) : Type :=
| Child (n : N)
| Children (l : list N)
| Constant (repr : string).
Arguments Child {N} n.
Arguments Children {N} l.
Arguments Constant {N} repr.

(** Syntax-tree objects.  The four classes [generate_cfg] tests with
    [isinstance] have a constructor of their own, with their node-valued
    fields in [_fields] order; every other class is [Other], with its class
    name and its fields in [_fields] order.  [oid] is the value [id(node)]
    of the object. *)
Inductive node : Type :=
| FunctionDef (oid : Z) (name : string) (args : node) (body : list node)
    (decorator_list : list node) (returns : option node)
    (type_params : list node)
| If (oid : Z) (test : node) (body orelse : list node)
| While (oid : Z) (test : node) (body orelse : list node)
| For (oid : Z) (target iter : node) (body orelse : list node)
| Other (oid : Z) (cls : string) (fields : list (string * field node)).

(** [id(node)] *)
Definition obj_id (n : node) : Z :=
  match n with
  | FunctionDef i _ _ _ _ _ _ | If i _ _ _ | While i _ _ _
  | For i _ _ _ _ | Other i _ _ => i
  end.

Definition field_nodes {N} (f : field N) : list N :=
  match f with
  | Child n => [n]
  | Children l => l
  | Constant _ => []
  end.

(** [ast.iter_child_nodes]: the node-valued fields and the items of the
    list-valued fields, in [_fields] order. *)
Definition iter_child_nodes (n : node) : list node :=
  match n with
  | FunctionDef _ _ args body decorator_list returns type_params =>
      args :: body ++ decorator_list ++ option_list returns ++ type_params
  | If _ test body orelse => test :: body ++ orelse
  | While _ test body orelse => test :: body ++ orelse
  | For _ target iter body orelse => target :: iter :: body ++ orelse
  | Other _ _ fields => flat_map (λ nf, field_nodes nf.2) fields
  end.

Definition sum_nat (l : list nat) : nat := foldr Nat.add 0%nat l.

(** Number of objects below and including [n]. *)
Fixpoint size (n : node) : nat :=
  match n with
  | FunctionDef _ _ args body decorator_list returns type_params =>
      S (size args + sum_nat (map size body)
         + sum_nat (map size decorator_list)
         + match returns with Some r => size r | None => 0 end
         + sum_nat (map size type_params))
  | If _ test body orelse
  | While _ test body orelse =>
      S (size test + sum_nat (map size body) + sum_nat (map size orelse))
  | For _ target iter body orelse =>
      S (size target + size iter + sum_nat (map size body)
         + sum_nat (map size orelse))
  | Other _ _ fields =>
      S (sum_nat (map (λ nf : string * field node,
                         match nf.2 with
                         | Child c => size c
                         | Children l => sum_nat (map size l)
                         | Constant _ => 0
                         end) fields))
  end%nat.

Definition todo_size (todo : list node) : nat := sum_nat (map size todo).

(** [ast.walk]: a queue is seeded with the root; each turn of the loop
    pops the leftmost node, appends its children on the right and yields
    the node.  [fuel] bounds the number of turns. *)
Fixpoint walk_todo (fuel : nat) (todo : list node) : list node :=
  match fuel, todo with
  | S fuel', n :: rest => n :: walk_todo fuel' (rest ++ iter_child_nodes n)
  | _, _ => []
  end.

Definition walk (n : node) : list node := walk_todo (size n) [n].

(** The same tree with every object identity sent through [f]: what
    another run of the parser, allocating elsewhere, returns. *)
Fixpoint relabel (f : Z → Z) (n : node) : node :=
  match n with
  | FunctionDef i name args body decorator_list returns type_params =>
      FunctionDef (f i) name (relabel f args) (map (relabel f) body)
        (map (relabel f) decorator_list)
        (match returns with Some r => Some (relabel f r) | None => None end)
        (map (relabel f) type_params)
  | If i test body orelse =>
      If (f i) (relabel f test) (map (relabel f) body)
        (map (relabel f) orelse)
  | While i test body orelse =>
      While (f i) (relabel f test) (map (relabel f) body)
        (map (relabel f) orelse)
  | For i target iter body orelse =>
      For (f i) (relabel f target) (relabel f iter) (map (relabel f) body)
        (map (relabel f) orelse)
  | Other i cls fields =>
      Other (f i) cls
        (map (λ nf : string * field node,
                (nf.1, match nf.2 with
                       | Child c => Child (relabel f c)
                       | Children l => Children (map (relabel f) l)
                       | Constant r => Constant r
                       end)) fields)
  end.

(** Two objects with the same syntax, whatever their identities. *)
Definition same_syntax (a b : node) : Prop :=
  relabel (λ _, 0) a = relabel (λ _, 0) b.

(** [x] is [n] or lies below it. *)
Inductive subnode (x : node) : node → Prop :=
| subnode_refl : subnode x x
| subnode_child n c :
    c ∈ iter_child_nodes n → subnode x c → subnode x n.

End ast.

(** ** The [graphviz] package *)

Module graphviz.

(** A statement of the DOT source a [Digraph] accumulates in its [body]. *)
Inductive line : Type :=
| node_line (name label : string)
| edge_line (tail_name head_name : string).

Record Digraph : Type :=
  { comment : string; format : string; body : list line }.

(** [graphviz.Digraph(comment=...)]; the package's default format is
    [pdf]. *)
Definition new (c : string) : Digraph :=
  {| comment := c; format := "pdf"; body := [] |}.

(** [dot.node(name, label)] *)
Definition node (name label : string) (dot : Digraph) : Digraph :=
  {| comment := comment dot; format := format dot;
     body := body dot ++ [node_line name label] |}.

(** [dot.edge(tail_name, head_name)] *)
Definition edge (tail_name head_name : string) (dot : Digraph) : Digraph :=
  {| comment := comment dot; format := format dot;
     body := body dot ++ [edge_line tail_name head_name] |}.

(** [dot.format = fmt] *)
Definition set_format (fmt : string) (dot : Digraph) : Digraph :=
  {| comment := comment dot; format := fmt; body := body dot |}.

(** The graph a DOT body denotes: one node per declared name, a later
    declaration of a name replacing the label of an earlier one. *)
Definition declare (m : gmap string string) (l : line) : gmap string string :=
  match l with
  | node_line name label => <[name := label]> m
  | edge_line _ _ => m
  end.

Definition nodes_of (ls : list line) : gmap string string :=
  foldl declare ∅ ls.

Definition nodes (dot : Digraph) : gmap string string := nodes_of (body dot).

Definition line_edge (l : line) : option (string * string) :=
  match l with
  | node_line _ _ => None
  | edge_line t h => Some (t, h)
  end.

Definition line_decl (l : line) : option (string * string) :=
  match l with
  | node_line name label => Some (name, label)
  | edge_line _ _ => None
  end.

(** The edges, in the order they were added (a [Digraph] keeps repeated
    edges). *)
Definition edges (dot : Digraph) : list (string * string) :=
  omap line_edge (body dot).

(** The node declarations, in the order they were made. *)
Definition decls (dot : Digraph) : list (string * string) :=
  omap line_decl (body dot).

End graphviz.

(** ** Exceptions and the small monads the program runs in *)

Inductive exn : Type :=
| SyntaxError (msg : string)
| SystemExit (code : Z)
| OSError (msg : string)
| IndexError.

(** Code that mutates the graph [dot] of the enclosing [generate_cfg]. *)
Definition Dot (A : Type) : Type := graphviz.Digraph → A * graphviz.Digraph.

#[global] Instance dot_ret : MRet Dot := λ A a dot, (a, dot).
#[global] Instance dot_bind : MBind Dot := λ A B k c dot,
  let '(a, dot') := c dot in k a dot'.

(** A [for] loop over a list, run for its effect. *)
Fixpoint for_ {A} (l : list A) (f : A → Dot unit) : Dot unit :=
  match l with
  | [] => mret tt
  | x :: l' => f x;; for_ l' f
  end.

Definition dot_node (name label : string) : Dot unit :=
  λ dot, (tt, graphviz.node name label dot).
Definition dot_edge (tail_name head_name : string) : Dot unit :=
  λ dot, (tt, graphviz.edge tail_name head_name dot).

(** [str(n)] of an integer: its decimal numeral. *)
Definition str (n : Z) : string := pretty n.

(** ** [generate_cfg] *)

Section CFGBuilder.

(** [ast.dump], the textual dump of a syntax object. *)
Variable dump : ast.node → string.

(** [ast.parse]: the tree of a source text, or the [SyntaxError] raised. *)
Variable parse : string → exn + ast.node.

(** The helper [add_cfg_node] declares a node named after the identity of
    [node] and returns that name. *)
Definition add_cfg_node (node : ast.node) (label : string) : Dot string :=
  let node_id := str (ast.obj_id node) in
  dot_node node_id label;; mret node_id.

(** The loop every branch runs over a statement list: a child node per
    statement and an edge to it from [parent]. *)
Definition add_stmts (parent : string) (prefix : string)
    (stmts : list ast.node) : Dot unit :=
  for_ stmts (λ stmt,
    stmt_node ← add_cfg_node stmt (prefix +:+ dump stmt);
    dot_edge parent stmt_node).

(** The body of the loop over [ast.walk(tree)]. *)
Definition visit (node : ast.node) : Dot unit :=
  match node with
  | ast.FunctionDef _ name _ body _ _ _ =>
      func_node ← add_cfg_node node ("Function: " +:+ name);
      add_stmts func_node "Statement: " body
  | ast.If _ test body orelse =>
      if_node ← add_cfg_node node ("If Condition: " +:+ dump test);
      add_stmts if_node "Statement: " body;;
      add_stmts if_node "Else Statement: " orelse
  | ast.While _ test body _ =>
      while_node ← add_cfg_node node ("While Loop: " +:+ dump test);
      add_stmts while_node "Statement: " body
  | ast.For _ target _ body _ =>
      for_node ← add_cfg_node node ("For Loop: " +:+ dump target);
      add_stmts for_node "Statement: " body
  | ast.Other _ _ _ => mret tt
  end.

(** The graph built from an already parsed tree. *)
Definition build (tree : ast.node) : graphviz.Digraph :=
  let dot := graphviz.new "Control Flow Graph" in
  (for_ (ast.walk tree) visit dot).2.

Definition generate_cfg (code : string) : exn + graphviz.Digraph :=
  match parse code with
  | inl e => inl e
  | inr tree => inr (build tree)
  end.

End CFGBuilder.

(** ** The command line: [load_code], [save_cfg_image], [main] *)

(** What the process can see and change: the regular files that can be
    read, by path, with their text; the paths of the other regular files,
    those [open] or [read] raises on (no permission, bytes that do not
    decode); and the lines printed so far. *)
Record World : Type :=
  { files : gmap string string;
    unreadable : gset string;
    stdout : list string }.

(** Code that may raise and that reads and changes the world. *)
Definition IO (A : Type) : Type := World → (exn + A) * World.

#[global] Instance io_ret : MRet IO := λ A a w, (inr a, w).
#[global] Instance io_bind : MBind IO := λ A B k c w,
  match c w with
  | (inr a, w') => k a w'
  | (inl e, w') => (inl e, w')
  end.

Definition raise {A} (e : exn) : IO A := λ w, (inl e, w).

(** [print(s)] *)
Definition print (s : string) : IO unit :=
  λ w, (inr tt, {| files := files w; unreadable := unreadable w;
                   stdout := stdout w ++ [s] |}).

(** [sys.exit(code)] raises [SystemExit]. *)
Definition sys_exit {A} (code : Z) : IO A := raise (SystemExit code).

(** [os.path.isfile(path)]: true of every regular file, readable or not. *)
Definition os_path_isfile (path : string) : IO bool :=
  λ w, (inr (bool_decide (is_Some (files w !! path)
                          ∨ path ∈ unreadable w)), w).

(** The status the interpreter ends with: 0 after a normal return, the
    code of an uncaught [SystemExit], 1 after any other uncaught
    exception. *)
Definition exit_status {A} (r : exn + A) : Z :=
  match r with
  | inr _ => 0
  | inl (SystemExit code) => code
  | inl _ => 1
  end.

(** [open] and [read] return the text of a readable file and raise on
    any other path. *)
Definition load_code (file_path : string) : IO string :=
  λ w, match files w !! file_path with
       | Some text => (inr text, w)
       | None => (inl (OSError file_path), w)
       end.

Section Main.

Variable dump : ast.node → string.
Variable parse : string → exn + ast.node.

(** [cfg.render(filename=..., cleanup=True)] of the graphviz package. *)
Variable render : graphviz.Digraph → string → IO unit.

(** The [gc], [matplotlib] and [objgraph] calls of
    [visualize_memory_allocation], up to the image written at the given
    path. *)
Variable objgraph_snapshot : string → IO unit.

(** The [exec] of the analysed code and the [matplotlib] calls of
    [illustrate_pointers], up to the image saved at the given path.  It is
    a function of the text, the path and the world only: what a text does
    with the interpreter it runs in (reading [sys.argv], rebinding [print])
    is not modelled, so nothing is stated here of a run past a call that
    returns. *)
Variable exec_and_plot : string → string → IO unit.

Definition save_cfg_image (cfg : graphviz.Digraph) (output_file : string)
    : IO unit :=
  render (graphviz.set_format "png" cfg) output_file;;
  print ("Control-Flow Graph saved as " +:+ output_file).

Definition visualize_memory_allocation (output_file : string) : IO unit :=
  objgraph_snapshot output_file;;
  print ("Memory Allocation image saved as " +:+ output_file).

Definition illustrate_pointers (code output_file : string) : IO unit :=
  exec_and_plot code output_file;;
  print ("Pointer Usage image saved as " +:+ output_file).

(** [main], with [sys.argv] as its argument. *)
Definition main (argv : list string) : IO unit :=
  (if bool_decide (length argv < 2)%nat
   then print "Usage: python analyze_code.py <python_file>";; sys_exit 1
   else mret tt);;
  input_file ← match argv !! 1%nat with
               | Some a => mret a
               | None => raise IndexError
               end;
  is_file ← os_path_isfile input_file;
  (if negb is_file
   then print ("File not found: " +:+ input_file);; sys_exit 1
   else mret tt);;
  code ← load_code input_file;
  cfg ← match generate_cfg dump parse code with
        | inl e => raise e
        | inr dot => mret dot
        end;
  save_cfg_image cfg "cfg";;
  visualize_memory_allocation "memory_allocation.png";;
  illustrate_pointers code "pointers.png".

End Main.

(** ** Vocabulary of the statements *)

(** The name [add_cfg_node] gives the node of a syntax object. *)
Definition key (n : ast.node) : string := str (ast.obj_id n).

(** The four classes [generate_cfg] acts on. *)
Definition is_construct (n : ast.node) : bool :=
  match n with
  | ast.Other _ _ _ => false
  | _ => true
  end.

Definition is_function (n : ast.node) : bool :=
  match n with
  | ast.FunctionDef _ _ _ _ _ _ _ => true
  | _ => false
  end.

(** The conditionals and loops. *)
Definition is_branch_or_loop (n : ast.node) : bool :=
  match n with
  | ast.If _ _ _ _ | ast.While _ _ _ _ | ast.For _ _ _ _ _ => true
  | _ => false
  end.

(** The statement lists [generate_cfg] iterates over at a construct. *)
Definition body_stmts (n : ast.node) : list ast.node :=
  match n with
  | ast.FunctionDef _ _ _ body _ _ _ | ast.If _ _ body _
  | ast.While _ _ body _ | ast.For _ _ _ body _ => body
  | ast.Other _ _ _ => []
  end.

Definition else_stmts (n : ast.node) : list ast.node :=
  match n with
  | ast.If _ _ _ orelse => orelse
  | _ => []
  end.

Definition stmts_of (n : ast.node) : list ast.node :=
  body_stmts n ++ else_stmts n.

(** The constructs of a tree, one entry per place [ast.walk] finds one. *)
Definition constructs (tree : ast.node) : list ast.node :=
  filter (λ n, is_construct n = true) (ast.walk tree).

(** No function, conditional or loop anywhere in or below [n]. *)
Definition construct_free (n : ast.node) : Prop :=
  ∀ x, ast.subnode x n → is_construct x = false.

(** Same identity, same object: what [id] promises of the objects alive
    during one call. *)
Definition id_sound (tree : ast.node) : Prop :=
  ∀ x y, x ∈ ast.walk tree → y ∈ ast.walk tree →
    ast.obj_id x = ast.obj_id y → x = y.

(** Edges that end at the node named [k]. *)
Definition has_incoming (g : graphviz.Digraph) (k : string) : Prop :=
  ∃ t, (t, k) ∈ graphviz.edges g.

(** The names of the nodes of the functions defined at the top level of
    the module [tree]. *)
Definition root_function_key (tree : ast.node) (k : string) : Prop :=
  ∃ f, f ∈ ast.iter_child_nodes tree ∧ is_function f = true ∧ k = key f.

(** The invariant of the data model, as the design words it: every node
    but those of the root-level functions has an incoming edge. *)
Definition incoming_edge_invariant (tree : ast.node) (g : graphviz.Digraph)
    : Prop :=
  ∀ k, k ∈ dom (graphviz.nodes g) → ¬ root_function_key tree k →
    has_incoming g k.

(** The body declares the name [k] with label [l1] and, later, with
    label [l2]. *)
Definition declared_twice (g : graphviz.Digraph) (k l1 l2 : string) : Prop :=
  ∃ b1 b2 b3,
    graphviz.body g
    = b1 ++ graphviz.node_line k l1 :: b2 ++ graphviz.node_line k l2 :: b3.

(** The labels of the nodes of a graph, one per node. *)
Definition node_labels (g : graphviz.Digraph) : list string :=
  (map_to_list (graphviz.nodes g)).*2.

(** The edges of a graph, each as the labels of the two nodes it joins. *)
Definition edge_shape (g : graphviz.Digraph)
    : list (option string * option string) :=
  (λ e, (graphviz.nodes g !! e.1, graphviz.nodes g !! e.2))
    <$> graphviz.edges g.

(** The error contract of the command line as the interface words it,
    for a run of [main]: a path that does not resolve to a readable file
    gets the file-not-found line and exit status 1, and no file changes. *)
Definition file_not_found_contract
    (run : list string → World → (exn + unit) * World) : Prop :=
  ∀ argv w input_file,
    argv !! 1%nat = Some input_file → files w !! input_file = None →
    exit_status (run argv w).1 = 1 ∧ files (run argv w).2 = files w
    ∧ stdout (run argv w).2 = stdout w ++ ["File not found: " +:+ input_file].

(** [dot] after more lines were added to its body. *)
Definition append_lines (dot : graphviz.Digraph) (ls : list graphviz.line)
    : graphviz.Digraph :=
  {| graphviz.comment := graphviz.comment dot;
     graphviz.format := graphviz.format dot;
     graphviz.body := graphviz.body dot ++ ls |}.

Section Emitted.

Variable dump : ast.node → string.

(** The label of a construct's own node. *)
Definition construct_label (n : ast.node) : string :=
  match n with
  | ast.FunctionDef _ name _ _ _ _ _ => "Function: " +:+ name
  | ast.If _ test _ _ => "If Condition: " +:+ dump test
  | ast.While _ test _ _ => "While Loop: " +:+ dump test
  | ast.For _ target _ _ _ => "For Loop: " +:+ dump target
  | ast.Other _ _ _ => ""
  end.

(** The lines one statement list adds to the body. *)
Definition stmt_lines (parent prefix : string) (stmts : list ast.node)
    : list graphviz.line :=
  flat_map (λ s, [graphviz.node_line (key s) (prefix +:+ dump s);
                  graphviz.edge_line parent (key s)]) stmts.

(** The lines one turn of the loop over [ast.walk(tree)] adds. *)
Definition lines_of (n : ast.node) : list graphviz.line :=
  if is_construct n then
    graphviz.node_line (key n) (construct_label n)
      :: stmt_lines (key n) "Statement: " (body_stmts n)
      ++ stmt_lines (key n) "Else Statement: " (else_stmts n)
  else [].

(** The declarations one turn of the loop makes. *)
Definition decls_of (n : ast.node) : list (string * string) :=
  if is_construct n then
    (key n, construct_label n)
      :: ((λ s, (key s, "Statement: " +:+ dump s)) <$> body_stmts n)
      ++ ((λ s, (key s, "Else Statement: " +:+ dump s)) <$> else_stmts n)
  else [].

End Emitted.

(** Renaming of node names between two runs whose object identities
    correspond through [f]. *)
Definition key_rel (f : Z → Z) (k1 k2 : string) : Prop :=
  ∃ i, k1 = str i ∧ k2 = str (f i).

Inductive line_rel (R : string → string → Prop)
    : graphviz.line → graphviz.line → Prop :=
| node_line_rel k1 k2 label :
    R k1 k2 →
    line_rel R (graphviz.node_line k1 label) (graphviz.node_line k2 label)
| edge_line_rel t1 t2 h1 h2 :
    R t1 t2 → R h1 h2 →
    line_rel R (graphviz.edge_line t1 h1) (graphviz.edge_line t2 h2).

(** ** A dump and a few parsed programs to run the builder on *)

Definition dump_list (d : ast.node → string) (l : list ast.node) : string :=
  "[" +:+ String.concat ", " (map d l) +:+ "]".

(** A dump written the way [ast.dump] writes one, over the fields the
    model keeps: the class name, then [field=value] for each field. *)
Fixpoint dump_model (n : ast.node) : string :=
  match n with
  | ast.FunctionDef _ name args body decorator_list returns type_params =>
      "FunctionDef(name='" +:+ name +:+ "', args=" +:+ dump_model args
      +:+ ", body=" +:+ dump_list dump_model body
      +:+ ", decorator_list=" +:+ dump_list dump_model decorator_list
      +:+ match returns with
          | Some r => ", returns=" +:+ dump_model r
          | None => ""
          end
      +:+ ", type_params=" +:+ dump_list dump_model type_params +:+ ")"
  | ast.If _ test body orelse =>
      "If(test=" +:+ dump_model test
      +:+ ", body=" +:+ dump_list dump_model body
      +:+ ", orelse=" +:+ dump_list dump_model orelse +:+ ")"
  | ast.While _ test body orelse =>
      "While(test=" +:+ dump_model test
      +:+ ", body=" +:+ dump_list dump_model body
      +:+ ", orelse=" +:+ dump_list dump_model orelse +:+ ")"
  | ast.For _ target iter body orelse =>
      "For(target=" +:+ dump_model target +:+ ", iter=" +:+ dump_model iter
      +:+ ", body=" +:+ dump_list dump_model body
      +:+ ", orelse=" +:+ dump_list dump_model orelse +:+ ")"
  | ast.Other _ cls fields =>
      cls +:+ "("
      +:+ String.concat ", "
            (map (λ nf : string * ast.field ast.node,
                    nf.1 +:+ "="
                    +:+ match nf.2 with
                        | ast.Child c => dump_model c
                        | ast.Children l => dump_list dump_model l
                        | ast.Constant r => r
                        end) fields)
      +:+ ")"
  end.

Module Examples.
Import ast.

Definition Module_ (i : Z) (body : list node) : node :=
  Other i "Module" [("body", Children body); ("type_ignores", Children [])].
Definition Name (i : Z) (x : string) : node :=
  Other i "Name" [("id", Constant ("'" +:+ x +:+ "'"))].
Definition Pass (i : Z) : node := Other i "Pass" [].
Definition Return (i : Z) (value : node) : node :=
  Other i "Return" [("value", Child value)].
Definition Expr (i : Z) (value : node) : node :=
  Other i "Expr" [("value", Child value)].
Definition arguments (i : Z) : node :=
  Other i "arguments" [("args", Children [])].

(** [def f(): pass; return x] *)
Definition fun_f : node :=
  FunctionDef 11 "f" (arguments 12) [Pass 13; Return 14 (Name 15 "x")]
    [] None [].
Definition prog_function : node := Module_ 10 [fun_f].

(** [if c: a; b else: d], at module level *)
Definition if_c : node :=
  If 21 (Name 22 "c") [Expr 23 (Name 24 "a"); Expr 25 (Name 26 "b")]
    [Expr 27 (Name 28 "d")].
Definition prog_if : node := Module_ 20 [if_c].

(** [while c: pass; pass] with two identical body statements *)
Definition while_c : node :=
  While 31 (Name 32 "c") [Pass 33; Pass 34] [].
Definition prog_while : node := Module_ 30 [while_c].

(** [for x in xs: pass] *)
Definition for_x : node :=
  For 41 (Name 42 "x") (Name 43 "xs") [Pass 44] [].
Definition prog_for : node := Module_ 40 [for_x].

(** [while c: if a: pass elif b: pass]: an [if] right in a loop body,
    with an [elif] arm the parser puts in the [orelse] list. *)
Definition elif_b : node := If 57 (Name 58 "b") [Pass 59] [].
Definition if_a : node := If 53 (Name 54 "a") [Pass 55] [elif_b].
Definition while_nested : node := While 51 (Name 52 "c") [if_a] [].
Definition prog_nested : node := Module_ 50 [while_nested].

(** [x; pass]: no function, conditional or loop *)
Definition prog_plain : node := Module_ 60 [Expr 61 (Name 62 "x"); Pass 63].

(** Collaborators that write their image and return. *)
Definition writes (path : string) : IO unit :=
  λ w, (inr tt, {| files := <[path := "image"]> (files w);
                   unreadable := unreadable w;
                   stdout := stdout w |}).
Definition render_png (g : graphviz.Digraph) (filename : string) : IO unit :=
  writes (filename +:+ "." +:+ graphviz.format g).
Definition plot (code path : string) : IO unit := writes path.

(** A parser that knows one program and rejects every other text. *)
Definition parse_one (code : string) : exn + node :=
  if decide (code = "x; pass") then inr prog_plain
  else inl (SyntaxError "invalid syntax").

(** A first run that parses [while c: pass; pass], and a second run of
    the same parser whose objects live 1000 further. *)
Definition parse_run1 (code : string) : exn + node :=
  if decide (code = "while c: pass; pass") then inr prog_while
  else inl (SyntaxError "invalid syntax").
Definition parse_run2 (code : string) : exn + node :=
  match parse_run1 code with
  | inl e => inl e
  | inr t => inr (relabel (Z.add 1000) t)
  end.

End Examples.

(** ** More vocabulary: loops' else lists, use before declaration, ranks *)

(** The [orelse] list of a loop, which [generate_cfg] never iterates. *)
Definition loop_orelse (n : ast.node) : list ast.node :=
  match n with
  | ast.While _ _ _ orelse | ast.For _ _ _ _ orelse => orelse
  | _ => []
  end.

(** Read in order, with the names in [declared] known at the start, the
    lines never put a name in an edge before a line declares it. *)
Fixpoint declared_before_use (declared : gset string)
    (ls : list graphviz.line) : Prop :=
  match ls with
  | [] => True
  | graphviz.node_line k _ :: ls' =>
      declared_before_use ({[k]} ∪ declared) ls'
  | graphviz.edge_line a b :: ls' =>
      a ∈ declared ∧ b ∈ declared ∧ declared_before_use declared ls'
  end.

(** The size of the first object of the walk whose node is named [k]. *)
Definition key_size (tree : ast.node) (k : string) : nat :=
  match list_find (λ x, key x = k) (ast.walk tree) with
  | Some (_, x) => ast.size x
  | None => 0
  end.

(** ** The report of [illustrate_pointers] *)

Definition newline : string := String (Ascii.ascii_of_nat 10) EmptyString.

Section PointerReport.

(** The values left in [exec_env] by the executed code, with [id(val)]
    and [sys.getrefcount(val)]. *)
Variable value : Type.
Variable id_of : value → Z.
Variable getrefcount : value → Z.

(** [var.startswith("__")] *)
Definition startswith_dunder (var : string) : bool := String.prefix "__" var.

(** The f-string of the comprehension. *)
Definition pointer_line (var : string) (val : value) : string :=
  var +:+ ": ID " +:+ str (id_of val)
  +:+ ", Ref Count " +:+ str (getrefcount val).

(** [pointer_info]: one line per item of [exec_env.items()] whose name
    does not start with two underscores, in the order of the dictionary. *)
Definition pointer_info (exec_env : list (string * value)) : list string :=
  (λ item, pointer_line item.1 item.2)
    <$> filter (λ item, startswith_dunder item.1 = false) exec_env.

(** [pointer_text], the lines joined by a newline. *)
Definition pointer_text (exec_env : list (string * value)) : string :=
  String.concat newline (pointer_info exec_env).

End PointerReport.

Module MoreExamples.
Import ast.

(** [while c: pass else: pass] *)
Definition while_else : node :=
  While 71 (Examples.Name 72 "c") [Examples.Pass 73] [Examples.Pass 74].
Definition prog_while_else : node := Examples.Module_ 70 [while_else].

(** [class A: def m(): pass], a method inside a class *)
Definition method_m : node :=
  FunctionDef 82 "m" (Examples.arguments 83) [Examples.Pass 84] [] None [].
Definition class_A : node :=
  Other 81 "ClassDef" [("name", Constant "'A'"); ("body", Children [method_m])].
Definition prog_class : node := Examples.Module_ 80 [class_A].

(** A parser for [class A: ...] and collaborators that fail. *)
Definition parse_class (code : string) : exn + node :=
  if decide (code = "class A: ...") then inr prog_class
  else inl (SyntaxError "invalid syntax").
Definition render_fails (g : graphviz.Digraph) (filename : string)
    : IO unit :=
  raise (OSError "dot not found").
Definition snapshot_fails (path : string) : IO unit :=
  raise (OSError "objgraph").

(** [import sys; sys.exit(3)], its parser, and the execution of that
    text, which raises [SystemExit(3)]. *)
Definition prog_exit : node :=
  Examples.Module_ 90
    [Other 91 "Import" [("names", Children [Other 92 "alias" []])];
     Examples.Expr 93 (Other 94 "Call" [("func", Child (Examples.Name 95 "exit"))])].
Definition parse_exit (code : string) : exn + node :=
  if decide (code = "import sys; sys.exit(3)") then inr prog_exit
  else inl (SyntaxError "invalid syntax").
Definition exec_exits (code path : string) : IO unit :=
  raise (SystemExit 3).

(** Values as pairs of an identity and a reference count, and the
    environment left by [x = 1; y = x]. *)
Definition env_xy : list (string * (Z * Z)) :=
  [("__builtins__", (500, 4)); ("x", (501, 3)); ("y", (501, 3))].

End MoreExamples.

(** ** Facts about [ast.walk] *)

Section WalkFacts.
Import ast.

Lemma sum_nat_app (l1 l2 : list nat) :
  sum_nat (l1 ++ l2) = (sum_nat l1 + sum_nat l2)%nat.
Proof. induction l1 as [|a l1 IH]; simpl; [done | rewrite IH; lia]. Qed.

Lemma todo_size_app (q1 q2 : list node) :
  todo_size (q1 ++ q2) = (todo_size q1 + todo_size q2)%nat.
Proof. unfold todo_size. by rewrite map_app, sum_nat_app. Qed.

Lemma todo_size_cons (n : node) (q : list node) :
  todo_size (n :: q) = (size n + todo_size q)%nat.
Proof. done. Qed.

Lemma size_pos (n : node) : (0 < size n)%nat.
Proof. destruct n; simpl; lia. Qed.

(** An object counts for one more than its children. *)
Lemma size_children (n : node) :
  size n = S (todo_size (iter_child_nodes n)).
Proof.
  destruct n as [i nm a b d r tp|i t b o|i t b o|i tg it b o|i c fs]; simpl.
  - rewrite todo_size_cons, !todo_size_app. unfold todo_size.
    destruct r; simpl; lia.
  - rewrite todo_size_cons, !todo_size_app. unfold todo_size. lia.
  - rewrite todo_size_cons, !todo_size_app. unfold todo_size. lia.
  - rewrite !todo_size_cons, !todo_size_app. unfold todo_size. lia.
  - f_equal. induction fs as [|[nm f] fs IH]; simpl; [done|].
    rewrite todo_size_app, IH. f_equal.
    destruct f; simpl; unfold todo_size; simpl; lia.
Qed.

(** With fuel for every object of the queue, the loop of [ast.walk] ends
    because the queue is empty: it yields as many objects as the queue
    holds, so the fuel of [walk] never cuts a walk short. *)
Lemma walk_todo_length (fuel : nat) (q : list node) :
  (todo_size q ≤ fuel)%nat → length (walk_todo fuel q) = todo_size q.
Proof.
  revert q. induction fuel as [|fuel IH]; intros q Hq.
  - destruct q as [|n q]; [done|].
    rewrite todo_size_cons in Hq. pose proof (size_pos n). lia.
  - destruct q as [|n q]; [done|]. simpl.
    rewrite todo_size_cons, size_children in *.
    rewrite IH; rewrite todo_size_app; lia.
Qed.

Lemma walk_length (t : node) : length (walk t) = size t.
Proof.
  unfold walk. rewrite walk_todo_length; unfold todo_size; simpl; lia.
Qed.

(** Whatever is queued is yielded. *)
Lemma walk_todo_queue (fuel : nat) (q : list node) (x : node) :
  (todo_size q ≤ fuel)%nat → x ∈ q → x ∈ walk_todo fuel q.
Proof.
  revert q. induction fuel as [|fuel IH]; intros q Hq Hx.
  - destruct q as [|n q]; [by apply elem_of_nil in Hx|].
    rewrite todo_size_cons in Hq. pose proof (size_pos n). lia.
  - destruct q as [|n q]; [by apply elem_of_nil in Hx|]. simpl.
    rewrite todo_size_cons, size_children in Hq.
    apply elem_of_cons in Hx as [->|Hx]; [left|right].
    apply IH; [rewrite todo_size_app; lia | set_solver].
Qed.

(** The children of a yielded object are yielded after it. *)
Lemma walk_todo_children_later (fuel : nat) (q l1 l2 : list node)
    (c y : node) :
  (todo_size q ≤ fuel)%nat → walk_todo fuel q = l1 ++ c :: l2 →
  y ∈ iter_child_nodes c → y ∈ l2.
Proof.
  revert q l1. induction fuel as [|fuel IH]; intros q l1 Hq Hw Hy.
  - simpl in Hw. by destruct l1.
  - destruct q as [|n q]; [by destruct l1|]. simpl in Hw.
    rewrite todo_size_cons, size_children in Hq.
    assert (todo_size (q ++ iter_child_nodes n) ≤ fuel)%nat as Hq'
      by (rewrite todo_size_app; lia).
    destruct l1 as [|a l1]; simplify_eq/=.
    + apply walk_todo_queue; [done | set_solver].
    + by eapply IH.
Qed.

(** Everything yielded is a queued object or lies below one. *)
Lemma walk_todo_subnode (fuel : nat) (q : list node) (x : node) :
  x ∈ walk_todo fuel q → ∃ r, r ∈ q ∧ subnode x r.
Proof.
  revert q. induction fuel as [|fuel IH]; intros q Hx.
  - by apply elem_of_nil in Hx.
  - destruct q as [|n q]; [by apply elem_of_nil in Hx|]. simpl in Hx.
    apply elem_of_cons in Hx as [->|Hx].
    + exists n. split; [left | constructor].
    + apply IH in Hx as (r & Hr & Hsub).
      apply elem_of_app in Hr as [Hr|Hr].
      * exists r. split; [by right | done].
      * exists n. split; [left | by econstructor].
Qed.

Lemma walk_subnode (t x : node) : x ∈ walk t → subnode x t.
Proof.
  intros Hx. apply walk_todo_subnode in Hx as (r & Hr & Hsub).
  by apply list_elem_of_singleton in Hr as ->.
Qed.

Lemma walk_children_later (t : node) (l1 l2 : list node) (c y : node) :
  walk t = l1 ++ c :: l2 → y ∈ iter_child_nodes c → y ∈ l2.
Proof.
  apply walk_todo_children_later. unfold todo_size. simpl. lia.
Qed.

Lemma walk_child (t c y : node) :
  c ∈ walk t → y ∈ iter_child_nodes c → y ∈ walk t.
Proof.
  intros Hc Hy. apply list_elem_of_split in Hc as (l1 & l2 & Hw).
  rewrite Hw. apply elem_of_app. right. right.
  by eapply walk_children_later.
Qed.

(** The walk is full: it yields every object of the tree. *)
Lemma subnode_walk (t x : node) : subnode x t → x ∈ walk t.
Proof.
  intros Hsub. assert (t ∈ walk t) as Ht.
  { apply walk_todo_queue; [unfold todo_size; simpl; lia | left]. }
  cut (∀ n, subnode x n → n ∈ walk t → x ∈ walk t).
  { intros Hcut. by apply (Hcut t). }
  clear. intros n Hsub.
  induction Hsub as [|n c Hc Hsub IH]; [done|].
  intros Hn. apply IH. by eapply walk_child.
Qed.

(** A tree without constructs yields none. *)
Lemma walk_todo_construct_free (fuel : nat) (q : list node) :
  Forall construct_free q →
  filter (λ n, is_construct n = true) (walk_todo fuel q) = [].
Proof.
  intros Hq. rewrite Forall_forall in Hq.
  assert (∀ x, x ∈ walk_todo fuel q → is_construct x = false) as Hw.
  { intros x (r & Hr & Hsub)%walk_todo_subnode. by apply (Hq r Hr). }
  induction (walk_todo fuel q) as [|a w IH]; [done|].
  rewrite filter_cons_False.
  - apply IH. intros x Hx. apply Hw. by right.
  - rewrite (Hw a); [done | left].
Qed.

Lemma construct_free_children (n : node) :
  construct_free n → Forall construct_free (iter_child_nodes n).
Proof.
  intros Hn. apply Forall_forall. intros c Hc x Hx.
  apply Hn. by econstructor.
Qed.

(** A queue whose only construct is [c], itself without constructs
    below it, yields [c] as the only construct. *)
Lemma walk_todo_single (fuel : nat) (q1 q2 : list node) (c : node) :
  (todo_size (q1 ++ c :: q2) ≤ fuel)%nat →
  Forall construct_free q1 → Forall construct_free q2 →
  is_construct c = true → Forall construct_free (iter_child_nodes c) →
  filter (λ n, is_construct n = true) (walk_todo fuel (q1 ++ c :: q2)) = [c].
Proof.
  revert fuel q2. induction q1 as [|a q1 IH]; intros fuel q2 Hf H1 H2 Hc Hch.
  - destruct fuel as [|fuel].
    { simpl in Hf. rewrite todo_size_cons in Hf. pose proof (size_pos c). lia. }
    simpl. rewrite filter_cons_True by done. f_equal.
    apply walk_todo_construct_free, Forall_app. done.
  - destruct fuel as [|fuel].
    { simpl in Hf. rewrite todo_size_cons in Hf. pose proof (size_pos a). lia. }
    apply Forall_cons in H1 as [Ha H1]. simpl.
    rewrite filter_cons_False.
    2:{ rewrite (Ha a); [done | constructor]. }
    rewrite <- app_assoc. simpl. apply IH; try done.
    + rewrite <- app_comm_cons, todo_size_cons, todo_size_app,
        todo_size_cons, size_children in Hf.
      rewrite todo_size_app, todo_size_cons, todo_size_app. lia.
    + apply Forall_app. split; [done | by apply construct_free_children].
Qed.

End WalkFacts.

(** ** Facts about the graph a body denotes *)

Section GraphFacts.
Import graphviz.

Lemma declare_union (m : gmap string string) (ls : list line) :
  foldl declare m ls = nodes_of ls ∪ m.
Proof.
  unfold nodes_of. revert m. induction ls as [|l ls IH]; intros m; simpl.
  - by rewrite (left_id_L ∅ (∪)).
  - rewrite IH, (IH (declare ∅ l)). destruct l as [k v|]; simpl.
    + rewrite <- (assoc_L (∪)). f_equal.
      by rewrite insert_empty, insert_union_singleton_l.
    + by rewrite (right_id_L ∅ (∪)).
Qed.

(** Later lines win. *)
Lemma nodes_of_app (l1 l2 : list line) :
  nodes_of (l1 ++ l2) = nodes_of l2 ∪ nodes_of l1.
Proof. unfold nodes_of at 1. by rewrite foldl_app, declare_union. Qed.

Lemma nodes_of_cons (l : line) (ls : list line) :
  nodes_of (l :: ls) = nodes_of ls ∪ declare ∅ l.
Proof. apply (nodes_of_app [l] ls). Qed.

Lemma nodes_of_list_to_map (ls : list line) :
  nodes_of ls = list_to_map (reverse (omap line_decl ls)).
Proof.
  induction ls as [|l ls IH]; [done|].
  rewrite nodes_of_cons, IH. destruct l as [k v|]; simpl.
  - rewrite reverse_cons, list_to_map_app. simpl.
    by rewrite insert_empty.
  - by rewrite (right_id_L ∅ (∪)).
Qed.

(** The nodes of a graph are the declared names. *)
Lemma dom_nodes_of (ls : list line) :
  dom (nodes_of ls) = list_to_set (omap line_decl ls).*1.
Proof.
  rewrite nodes_of_list_to_map, dom_list_to_map_L, fmap_reverse.
  apply set_eq. intros k. rewrite !elem_of_list_to_set.
  by rewrite elem_of_reverse.
Qed.

Lemma size_nodes_of (ls : list line) :
  NoDup (omap line_decl ls).*1 →
  size (nodes_of ls) = length (omap line_decl ls).
Proof.
  intros Hnd. rewrite <- size_dom, dom_nodes_of, size_list_to_set by done.
  by rewrite length_fmap.
Qed.

(** A name declared once carries the label of that declaration. *)
Lemma lookup_nodes_of (ls : list line) (k v : string) :
  NoDup (omap line_decl ls).*1 →
  nodes_of ls !! k = Some v ↔ node_line k v ∈ ls.
Proof.
  intros Hnd. rewrite nodes_of_list_to_map.
  rewrite <- elem_of_list_to_map.
  2:{ by rewrite fmap_reverse, reverse_Permutation. }
  rewrite elem_of_reverse, list_elem_of_omap. split.
  - intros ([k' v'|] & Hin & Heq); by simplify_eq/=.
  - intros Hin. by exists (node_line k v).
Qed.

Lemma omap_flat_map {A B C} (f : B → option C) (g : A → list B)
    (l : list A) :
  omap f (flat_map g l) = flat_map (λ x, omap f (g x)) l.
Proof.
  induction l as [|a l IH]; [done|]. simpl. by rewrite omap_app, IH.
Qed.

End GraphFacts.

(** ** What the loop of [generate_cfg] adds to the body *)

Section BuilderFacts.
Import graphviz.

Variable dump : ast.node → string.

Lemma append_lines_nil (d : Digraph) : append_lines d [] = d.
Proof. destruct d. unfold append_lines. simpl. by rewrite app_nil_r. Qed.

Lemma append_lines_app (d : Digraph) (l1 l2 : list line) :
  append_lines (append_lines d l1) l2 = append_lines d (l1 ++ l2).
Proof. unfold append_lines. simpl. by rewrite app_assoc. Qed.

Lemma for_spec {A} (f : A → Dot unit) (g : A → list line) (l : list A)
    (d : Digraph) :
  (∀ x d', f x d' = (tt, append_lines d' (g x))) →
  for_ l f d = (tt, append_lines d (flat_map g l)).
Proof.
  intros Hf. revert d. induction l as [|x l IH]; intros d; simpl.
  - by rewrite append_lines_nil.
  - unfold mbind, dot_bind. by rewrite Hf, IH, append_lines_app.
Qed.

Lemma add_cfg_node_spec (n : ast.node) (label : string) (d : Digraph) :
  add_cfg_node n label d = (key n, append_lines d [node_line (key n) label]).
Proof. done. Qed.

Lemma add_stmts_spec (parent prefix : string) (stmts : list ast.node)
    (d : Digraph) :
  add_stmts dump parent prefix stmts d
  = (tt, append_lines d (stmt_lines dump parent prefix stmts)).
Proof.
  unfold add_stmts, stmt_lines. apply for_spec. intros s d'.
  unfold mbind, dot_bind. rewrite add_cfg_node_spec.
  unfold dot_edge, edge, append_lines. simpl. by rewrite <- app_assoc.
Qed.

Lemma visit_spec (n : ast.node) (d : Digraph) :
  visit dump n d = (tt, append_lines d (lines_of dump n)).
Proof.
  destruct n; unfold visit, lines_of, mbind, dot_bind;
    rewrite ?add_cfg_node_spec, ?add_stmts_spec, ?append_lines_app;
    simpl; rewrite ?app_nil_r, ?append_lines_nil; done.
Qed.

(** The body of the built graph: what each yielded object adds, in the
    order of the walk. *)
Lemma build_body (t : ast.node) :
  body (build dump t) = flat_map (lines_of dump) (ast.walk t).
Proof.
  unfold build. by rewrite (for_spec _ (lines_of dump)) by apply visit_spec.
Qed.

Lemma lines_of_not_construct (n : ast.node) :
  is_construct n = false → lines_of dump n = [].
Proof. unfold lines_of. by intros ->. Qed.

(** Only the constructs of the tree add lines. *)
Lemma build_body_constructs (t : ast.node) :
  body (build dump t) = flat_map (lines_of dump) (constructs t).
Proof.
  rewrite build_body. unfold constructs.
  induction (ast.walk t) as [|a w IH]; [done|]. simpl.
  destruct (is_construct a) eqn:Ha.
  - rewrite filter_cons_True by done. simpl. by rewrite IH.
  - rewrite filter_cons_False by (by rewrite Ha).
    by rewrite lines_of_not_construct.
Qed.

Lemma stmt_lines_decl (parent prefix : string) (stmts : list ast.node) :
  omap line_decl (stmt_lines dump parent prefix stmts)
  = (λ s, (key s, prefix +:+ dump s)) <$> stmts.
Proof.
  unfold stmt_lines. induction stmts as [|s l IH]; [done|].
  csimpl. by rewrite IH.
Qed.

Lemma stmt_lines_edge (parent prefix : string) (stmts : list ast.node) :
  omap line_edge (stmt_lines dump parent prefix stmts)
  = (λ s, (parent, key s)) <$> stmts.
Proof.
  unfold stmt_lines. induction stmts as [|s l IH]; [done|].
  csimpl. by rewrite IH.
Qed.

Lemma lines_of_decl (n : ast.node) :
  omap line_decl (lines_of dump n) = decls_of dump n.
Proof.
  unfold lines_of, decls_of. destruct (is_construct n); [|done]. simpl.
  by rewrite omap_app, !stmt_lines_decl.
Qed.

Lemma lines_of_edge (n : ast.node) :
  omap line_edge (lines_of dump n) = (λ s, (key n, key s)) <$> stmts_of n.
Proof.
  unfold lines_of, stmts_of. destruct (is_construct n) eqn:Hn.
  - simpl. by rewrite omap_app, !stmt_lines_edge, fmap_app.
  - by destruct n.
Qed.

Lemma build_decls (t : ast.node) :
  decls (build dump t) = flat_map (decls_of dump) (ast.walk t).
Proof.
  unfold decls. rewrite build_body, omap_flat_map.
  induction (ast.walk t) as [|a w IH]; [done|]. simpl.
  by rewrite lines_of_decl, IH.
Qed.

Lemma build_edges (t : ast.node) :
  edges (build dump t)
  = flat_map (λ c, (λ s, (key c, key s)) <$> stmts_of c) (ast.walk t).
Proof.
  unfold edges. rewrite build_body, omap_flat_map.
  induction (ast.walk t) as [|a w IH]; [done|]. simpl.
  by rewrite lines_of_edge, IH.
Qed.

End BuilderFacts.

(** ** Graphs of trees with a single construct *)

Section SingleConstruct.
Import graphviz.

Variable dump : ast.node → string.

Lemma key_inj (a b : ast.node) : key a = key b → ast.obj_id a = ast.obj_id b.
Proof. unfold key, str. apply (inj pretty). Qed.

Lemma NoDup_keys (l : list ast.node) :
  NoDup (ast.obj_id <$> l) → NoDup (key <$> l).
Proof.
  intros Hnd. unfold key.
  rewrite (list_fmap_compose ast.obj_id str). by apply (NoDup_fmap_2 str).
Qed.

Lemma decls_of_keys (c : ast.node) :
  is_construct c = true → (decls_of dump c).*1 = key <$> c :: stmts_of c.
Proof.
  intros Hc. unfold decls_of, stmts_of. rewrite Hc. csimpl. f_equal.
  rewrite !fmap_app, <- !list_fmap_compose. done.
Qed.

Lemma constructs_elem (t c : ast.node) :
  c ∈ constructs t ↔ c ∈ ast.walk t ∧ is_construct c = true.
Proof. unfold constructs. rewrite list_elem_of_filter. tauto. Qed.

(** When [c] is the only construct of the tree and the objects it
    declares are distinct, the graph is [c]'s node, one node per statement
    of its lists and one edge from [c] to each. *)
Lemma single_construct_graph (t c : ast.node) :
  constructs t = [c] →
  NoDup (ast.obj_id <$> c :: stmts_of c) →
  let g := build dump t in
  size (nodes g) = S (length (stmts_of c))
  ∧ edges g = (λ s, (key c, key s)) <$> stmts_of c
  ∧ nodes g !! key c = Some (construct_label dump c)
  ∧ (∀ s, s ∈ body_stmts c →
       nodes g !! key s = Some ("Statement: " +:+ dump s))
  ∧ (∀ s, s ∈ else_stmts c →
       nodes g !! key s = Some ("Else Statement: " +:+ dump s)).
Proof.
  intros Hone Hnd g.
  assert (is_construct c = true) as Hc.
  { apply (constructs_elem t). rewrite Hone. left. }
  assert (body g = lines_of dump c) as Hbody.
  { unfold g. rewrite build_body_constructs, Hone. simpl. apply app_nil_r. }
  assert (NoDup (omap line_decl (body g)).*1) as Hnd'.
  { rewrite Hbody, lines_of_decl, decls_of_keys by done. by apply NoDup_keys. }
  assert (∀ k v, (k, v) ∈ decls_of dump c → nodes g !! k = Some v) as Hlook.
  { intros k v Hkv. unfold nodes. apply lookup_nodes_of; [done|].
    rewrite <- (lines_of_decl dump), <- Hbody in Hkv.
    apply list_elem_of_omap in Hkv as ([k' v'|] & Hin & Heq); by simplify_eq/=. }
  split; [|split; [|split; [|split]]].
  - unfold nodes. rewrite size_nodes_of by done.
    rewrite Hbody, lines_of_decl. unfold decls_of, stmts_of. rewrite Hc.
    simpl. by rewrite !length_app, !length_fmap.
  - unfold edges. by rewrite Hbody, lines_of_edge.
  - apply Hlook. unfold decls_of. rewrite Hc. left.
  - intros s Hs. apply Hlook. unfold decls_of. rewrite Hc. right.
    apply elem_of_app. left.
    by apply (list_elem_of_fmap_2 (λ s, (key s, "Statement: " +:+ dump s))).
  - intros s Hs. apply Hlook. unfold decls_of. rewrite Hc. right.
    apply elem_of_app. right.
    by apply (list_elem_of_fmap_2
                (λ s, (key s, "Else Statement: " +:+ dump s))).
Qed.

End SingleConstruct.

(** ** Where the nodes and the edges of a built graph come from *)

Section Provenance.
Import graphviz.

Variable dump : ast.node → string.

Lemma elem_of_flat_map {A B} (f : A → list B) (l : list A) (y : B) :
  y ∈ flat_map f l ↔ ∃ x, x ∈ l ∧ y ∈ f x.
Proof.
  rewrite list_elem_of_In, in_flat_map. split.
  - intros (x & Hx & Hy). exists x. by rewrite !list_elem_of_In.
  - intros (x & Hx & Hy). exists x. by rewrite <- !list_elem_of_In.
Qed.

Lemma elem_of_decls (t : ast.node) (k v : string) :
  (k, v) ∈ decls (build dump t)
  ↔ ∃ c, c ∈ ast.walk t ∧ (k, v) ∈ decls_of dump c.
Proof. rewrite build_decls. apply elem_of_flat_map. Qed.

Lemma elem_of_edges (t : ast.node) (e : string * string) :
  e ∈ edges (build dump t)
  ↔ ∃ c s, c ∈ ast.walk t ∧ s ∈ stmts_of c ∧ e = (key c, key s).
Proof.
  rewrite build_edges, elem_of_flat_map. split.
  - intros (c & Hc & He). apply list_elem_of_fmap in He as (s & -> & Hs).
    by exists c, s.
  - intros (c & s & Hc & Hs & ->). exists c. split; [done|].
    by apply (list_elem_of_fmap_2 (λ s, (key c, key s))).
Qed.

Lemma elem_of_nodes (g : Digraph) (k : string) :
  k ∈ dom (nodes g) ↔ ∃ v, (k, v) ∈ decls g.
Proof.
  unfold nodes, decls. rewrite dom_nodes_of, elem_of_list_to_set.
  rewrite list_elem_of_fmap. split.
  - intros ([k' v] & -> & Hin). by exists v.
  - intros (v & Hin). by exists (k, v).
Qed.

Lemma elem_of_decls_of (c : ast.node) (k v : string) :
  (k, v) ∈ decls_of dump c
  ↔ is_construct c = true
    ∧ ((k = key c ∧ v = construct_label dump c)
       ∨ (∃ s, s ∈ body_stmts c ∧ k = key s ∧ v = "Statement: " +:+ dump s)
       ∨ (∃ s, s ∈ else_stmts c ∧ k = key s
               ∧ v = "Else Statement: " +:+ dump s)).
Proof.
  unfold decls_of. destruct (is_construct c).
  - rewrite elem_of_cons, elem_of_app, !list_elem_of_fmap. split.
    + intros [Heq|[(s & Heq & Hs)|(s & Heq & Hs)]]; simplify_eq;
        (split; [done|]); eauto 10.
    + intros [_ [[-> ->]|[(s & Hs & -> & ->)|(s & Hs & -> & ->)]]]; eauto.
  - split; [by intros ?%elem_of_nil | by intros [? _]].
Qed.

Lemma length_decls_of (c : ast.node) :
  is_construct c = true →
  length (decls_of dump c) = S (length (stmts_of c)).
Proof.
  intros Hc. unfold decls_of, stmts_of. rewrite Hc. simpl.
  by rewrite !length_app, !length_fmap.
Qed.

Lemma build_decls_constructs (t : ast.node) :
  decls (build dump t) = flat_map (decls_of dump) (constructs t).
Proof.
  unfold decls. rewrite build_body_constructs, omap_flat_map.
  induction (constructs t) as [|a w IH]; [done|]. simpl.
  by rewrite lines_of_decl, IH.
Qed.

Lemma build_edges_constructs (t : ast.node) :
  edges (build dump t)
  = flat_map (λ c, (λ s, (key c, key s)) <$> stmts_of c) (constructs t).
Proof.
  unfold edges. rewrite build_body_constructs, omap_flat_map.
  induction (constructs t) as [|a w IH]; [done|]. simpl.
  by rewrite lines_of_edge, IH.
Qed.

Lemma length_flat_map_sum {A B} (f : A → list B) (l : list A) :
  length (flat_map f l) = sum_list ((λ x, length (f x)) <$> l).
Proof.
  induction l as [|a l IH]; [done|]. simpl. by rewrite length_app, IH.
Qed.

Lemma stmts_in_graph (t c s : ast.node) :
  c ∈ ast.walk t → s ∈ stmts_of c →
  key s ∈ dom (nodes (build dump t))
  ∧ (key c, key s) ∈ edges (build dump t).
Proof.
  intros Hc Hs. split.
  - assert (is_construct c = true) as Hcon.
    { destruct c; try done. by apply elem_of_nil in Hs. }
    apply elem_of_app in Hs as [Hs|Hs]; apply elem_of_nodes;
      eexists; apply elem_of_decls; exists c; (split; [done|]);
      apply elem_of_decls_of; (split; [done|]); eauto 10.
  - apply elem_of_edges. by exists c, s.
Qed.

Lemma construct_in_graph (t c : ast.node) :
  c ∈ ast.walk t → is_construct c = true →
  key c ∈ dom (nodes (build dump t)).
Proof.
  intros Hc Hcon. apply elem_of_nodes. exists (construct_label dump c).
  apply elem_of_decls. exists c. split; [done|].
  apply elem_of_decls_of. eauto.
Qed.

Lemma node_provenance (t : ast.node) (k : string) :
  k ∈ dom (nodes (build dump t)) →
  ∃ c, c ∈ ast.walk t ∧ is_construct c = true
       ∧ (k = key c ∨ ∃ s, s ∈ stmts_of c ∧ k = key s).
Proof.
  intros (v & Hkv)%elem_of_nodes. apply elem_of_decls in Hkv as (c & Hc & Hkv).
  apply elem_of_decls_of in Hkv as [Hcon Hkv]. exists c.
  split; [done|]. split; [done|]. unfold stmts_of.
  destruct Hkv as [[-> _]|[(s & Hs & -> & _)|(s & Hs & -> & _)]];
    [by left|right; exists s..]; set_solver.
Qed.

End Provenance.

Section SingleConstructEdges.
Import graphviz.

Variable dump : ast.node → string.

Lemma single_construct_is_construct (t c : ast.node) :
  constructs t = [c] → is_construct c = true ∧ c ∈ ast.walk t.
Proof.
  intros Hone. assert (c ∈ constructs t) as Hc by (rewrite Hone; left).
  by apply constructs_elem in Hc as [? ?].
Qed.

Lemma single_construct_edge_tail (t c : ast.node) (e : string * string) :
  constructs t = [c] → e ∈ edges (build dump t) → e.1 = key c.
Proof.
  intros Hone He. rewrite build_edges_constructs, Hone in He. simpl in He.
  rewrite app_nil_r in He. by apply list_elem_of_fmap in He as (s & -> & _).
Qed.

End SingleConstructEdges.

(** ** The tree another run of the parser returns *)

Section Relabel.
Import ast.

Lemma todo_size_elem (c : node) (l : list node) :
  c ∈ l → (size c ≤ todo_size l)%nat.
Proof.
  induction l as [|a l IH]; [by intros ?%elem_of_nil|].
  rewrite todo_size_cons. intros [->|Hc]%elem_of_cons; [lia|].
  apply IH in Hc. lia.
Qed.

Lemma size_child (c n : node) :
  c ∈ iter_child_nodes n → (size c < size n)%nat.
Proof. intros Hc%todo_size_elem. rewrite (size_children n). lia. Qed.

(** Induction on trees: a property that holds of an object whenever it
    holds of its children holds of every object. *)
Lemma node_children_ind (P : node → Prop) :
  (∀ n, (∀ c, c ∈ iter_child_nodes n → P c) → P n) → ∀ n, P n.
Proof.
  intros Hstep n. remember (size n) as k eqn:Hk. revert n Hk.
  induction k as [k IH] using lt_wf_ind. intros n ->.
  apply Hstep. intros c Hc. apply (IH (size c)); [by apply size_child|done].
Qed.

Variable f : Z → Z.

Lemma obj_id_relabel (n : node) : obj_id (relabel f n) = f (obj_id n).
Proof. by destruct n. Qed.

Lemma iter_child_nodes_relabel (n : node) :
  iter_child_nodes (relabel f n) = map (relabel f) (iter_child_nodes n).
Proof.
  destruct n as [i nm a b d r tp|i t b o|i t b o|i tg it b o|i c fs]; simpl.
  - rewrite !map_app. by destruct r.
  - by rewrite map_app.
  - by rewrite map_app.
  - by rewrite map_app.
  - induction fs as [|[nm fd] fs IH]; [done|]. simpl.
    rewrite map_app, IH. by destruct fd.
Qed.

Lemma todo_size_map (g : node → node) (l : list node) :
  (∀ c, c ∈ l → size (g c) = size c) → todo_size (map g l) = todo_size l.
Proof.
  induction l as [|a l IH]; [done|]. intros Hl. simpl.
  rewrite !todo_size_cons, IH, (Hl a); [done|left|].
  intros c Hc. apply Hl. by right.
Qed.

Lemma size_relabel (n : node) : size (relabel f n) = size n.
Proof.
  induction n as [n IH] using node_children_ind.
  rewrite (size_children n), (size_children (relabel f n)).
  by rewrite iter_child_nodes_relabel, todo_size_map.
Qed.

Lemma walk_todo_relabel (fuel : nat) (q : list node) :
  walk_todo fuel (map (relabel f) q) = map (relabel f) (walk_todo fuel q).
Proof.
  revert q. induction fuel as [|fuel IH]; intros [|n q]; try done. simpl.
  by rewrite iter_child_nodes_relabel, <- map_app, IH.
Qed.

(** The other run walks the corresponding objects in the same order. *)
Lemma walk_relabel (t : node) :
  walk (relabel f t) = map (relabel f) (walk t).
Proof. unfold walk. rewrite size_relabel. apply (walk_todo_relabel _ [t]). Qed.

End Relabel.

(** The model dump prints no identity. *)
Lemma dump_list_ext (d1 d2 : ast.node → string) (l1 l2 : list ast.node) :
  map d1 l1 = map d2 l2 → dump_list d1 l1 = dump_list d2 l2.
Proof. unfold dump_list. by intros ->. Qed.

Lemma map_relabel_ext (f : Z → Z) (d : ast.node → string)
    (l : list ast.node) :
  (∀ c, c ∈ l → d (ast.relabel f c) = d c) →
  map d (map (ast.relabel f) l) = map d l.
Proof.
  induction l as [|a l IH]; [done|]. intros Hl. simpl.
  rewrite IH, (Hl a); [done|left|]. intros c Hc. apply Hl. by right.
Qed.

(** Membership in a list written with [::] and [++]. *)
Ltac elem_of_list :=
  repeat first [rewrite elem_of_cons | rewrite elem_of_app]; auto 10.

Lemma dump_model_relabel (f : Z → Z) (n : ast.node) :
  dump_model (ast.relabel f n) = dump_model n.
Proof.
  induction n as [n IH] using node_children_ind.
  assert (∀ l, (∀ c, c ∈ l → c ∈ ast.iter_child_nodes n) →
            dump_list dump_model (map (ast.relabel f) l)
            = dump_list dump_model l) as Hlist.
  { intros l Hl. apply dump_list_ext, map_relabel_ext. auto. }
  destruct n as [i nm a b d r tp|i t b o|i t b o|i tg it b o|i c fs];
    simpl in *.
  - rewrite (IH a), (Hlist b), (Hlist d), (Hlist tp);
      try (intros; elem_of_list).
    destruct r as [r|]; [|done]. rewrite (IH r); [done|]. simpl.
    elem_of_list.
  - by rewrite (IH t), (Hlist b), (Hlist o); try (intros; elem_of_list).
  - by rewrite (IH t), (Hlist b), (Hlist o); try (intros; elem_of_list).
  - by rewrite (IH tg), (IH it), (Hlist b), (Hlist o);
      try (intros; elem_of_list).
  - do 4 f_equal. induction fs as [|[nm fd] fs IHfs]; [done|]. simpl.
    rewrite IHfs.
    + f_equal. f_equal. f_equal. destruct fd as [x|l|r]; simpl; [| |done].
      * apply IH. simpl. left.
      * apply Hlist. intros x Hx. simpl. elem_of_list.
    + intros x Hx. apply IH. simpl. elem_of_list.
    + intros l Hl. apply Hlist. intros x Hx. simpl. elem_of_list.
Qed.

(** ** The last declaration of a construct's name *)

Section LastDeclaration.
Import graphviz.

Variable dump : ast.node → string.

Lemma stmts_of_children (c s : ast.node) :
  s ∈ stmts_of c → s ∈ ast.iter_child_nodes c.
Proof.
  unfold stmts_of.
  destruct c; simpl;
    rewrite ?app_nil_r, ?elem_of_cons, ?elem_of_app, ?elem_of_nil; tauto.
Qed.

Lemma NoDup_fmap_eq {A B} (f : A → B) (l : list A) (x y : A) :
  NoDup (f <$> l) → x ∈ l → y ∈ l → f x = f y → x = y.
Proof.
  induction l as [|a l IH]; [by intros _ ?%elem_of_nil|].
  rewrite fmap_cons, NoDup_cons.
  intros [Ha Hnd] [->|Hx]%elem_of_cons [->|Hy]%elem_of_cons Heq; auto.
  - destruct Ha. rewrite Heq. by apply list_elem_of_fmap_2.
  - destruct Ha. rewrite <- Heq. by apply list_elem_of_fmap_2.
Qed.

(** Trees whose objects all have their own identity are sound. *)
Lemma id_sound_NoDup (t : ast.node) :
  NoDup (ast.obj_id <$> ast.walk t) → id_sound t.
Proof. intros Hnd x y. by apply NoDup_fmap_eq. Qed.

Lemma lookup_nodes_of_None (ls : list line) (k : string) :
  nodes_of ls !! k = None ↔ ∀ v, node_line k v ∉ ls.
Proof.
  rewrite <- not_elem_of_dom, dom_nodes_of, elem_of_list_to_set.
  rewrite list_elem_of_fmap. split.
  - intros Hno v Hin. apply Hno. exists (k, v). split; [done|].
    apply list_elem_of_omap. by exists (node_line k v).
  - intros Hno ([k' v] & -> & ([k2 v2|] & Hin & Heq)%list_elem_of_omap);
      simplify_eq/=. by apply (Hno v).
Qed.

Lemma elem_of_stmt_lines (parent prefix k v : string)
    (stmts : list ast.node) :
  node_line k v ∈ stmt_lines dump parent prefix stmts →
  ∃ s, s ∈ stmts ∧ k = key s.
Proof.
  unfold stmt_lines. intros (s & Hs & Hin)%elem_of_flat_map. exists s.
  split; [done|].
  apply elem_of_cons in Hin as [Heq|Hin]; [by simplify_eq|].
  apply elem_of_cons in Hin as [Heq|Hin]; [done|by apply elem_of_nil in Hin].
Qed.

(** Over a list where children come after their parent and identities
    name objects, the last declaration of the name of a construct [s] is
    the one [s] makes of itself. *)
Lemma last_declaration (s : ast.node) (w : list ast.node) :
  is_construct s = true →
  (∀ l1 x l2, w = l1 ++ x :: l2 → ∀ y, y ∈ ast.iter_child_nodes x → y ∈ l2) →
  (∀ x, x ∈ w → ast.obj_id x = ast.obj_id s → x = s) →
  (Exists (λ x, ast.obj_id x = ast.obj_id s) w →
     nodes_of (flat_map (lines_of dump) w) !! key s
     = Some (construct_label dump s))
  ∧ (Forall (λ x, ast.obj_id x ≠ ast.obj_id s) w →
     nodes_of (flat_map (lines_of dump) w) !! key s = None).
Proof.
  intros Hcon. induction w as [|x w IH]; intros Hlater Hsound.
  { split; [by intros ?%Exists_nil | done]. }
  destruct IH as [IHsome IHnone].
  { intros l1 y l2 ->. by apply (Hlater (x :: l1) y l2). }
  { intros y Hy. apply Hsound. by right. }
  simpl. rewrite nodes_of_app.
  destruct (decide (Exists (λ x, ast.obj_id x = ast.obj_id s) w)) as [Hex|Hno].
  { split.
    - intros _. by apply lookup_union_Some_l, IHsome.
    - intros [_ Hall]%Forall_cons. apply Exists_exists in Hex as (y & Hy & Heq).
      rewrite Forall_forall in Hall. by destruct (Hall y Hy). }
  apply not_Exists_Forall in Hno; [|intros y; apply _].
  rewrite lookup_union_r by by apply IHnone.
  assert (∀ prefix parent v,
            node_line (key s) v
            ∉ stmt_lines dump parent prefix (body_stmts x)
              ++ stmt_lines dump parent prefix (else_stmts x)) as Hstmts.
  { intros prefix parent v Hin.
    assert (∃ y, y ∈ stmts_of x ∧ key s = key y) as (y & Hy & Hk).
    { unfold stmts_of.
      apply elem_of_app in Hin as [Hin|Hin];
        apply elem_of_stmt_lines in Hin as (y & Hy & Hk); exists y;
        (split; [apply elem_of_app; auto | done]). }
    apply key_inj in Hk. rewrite Forall_forall in Hno.
    apply (Hno y); [|done].
    apply (Hlater [] x w eq_refl). by apply stmts_of_children. }
  assert (∀ v, node_line (key s) v
               ∉ stmt_lines dump (key x) "Statement: " (body_stmts x)
                 ++ stmt_lines dump (key x) "Else Statement: " (else_stmts x))
    as Hstmts'.
  { intros v [Hin|Hin]%elem_of_app.
    - apply (Hstmts "Statement: " (key x) v), elem_of_app. by left.
    - apply (Hstmts "Else Statement: " (key x) v), elem_of_app. by right. }
  destruct (decide (ast.obj_id x = ast.obj_id s)) as [Heq|Hne].
  - assert (x = s) as -> by (apply Hsound; [left | done]).
    split; [intros _|by intros [? _]%Forall_cons].
    unfold lines_of. rewrite Hcon. rewrite nodes_of_cons.
    rewrite lookup_union_r by by apply lookup_nodes_of_None.
    simpl. apply lookup_insert_eq.
  - split; [intros [?|Hex]%Exists_cons; [done|]|intros _].
    { apply Exists_exists in Hex as (y & Hy & Heq).
      rewrite Forall_forall in Hno. by destruct (Hno y Hy). }
    apply lookup_nodes_of_None. intros v. unfold lines_of.
    destruct (is_construct x); [|by intros ?%elem_of_nil].
    intros [Hin|Hin]%elem_of_cons; [|by apply (Hstmts' v)].
    injection Hin as Hk _. apply key_inj in Hk. by destruct Hne.
Qed.

End LastDeclaration.

(** ** Two runs whose object identities correspond *)

Section TwoRuns.
Import graphviz.

Variable dump : ast.node → string.
Variable f : Z → Z.
Hypothesis f_inj : Inj (=) (=) f.
Hypothesis dump_relabel : ∀ n, dump (ast.relabel f n) = dump n.

Lemma key_rel_key (n : ast.node) : key_rel f (key n) (key (ast.relabel f n)).
Proof. exists (ast.obj_id n). unfold key. by rewrite obj_id_relabel. Qed.

Lemma key_rel_fun (a b b' : string) :
  key_rel f a b → key_rel f a b' → b = b'.
Proof.
  intros (i & -> & ->) (j & Hij & ->). unfold str in *.
  by apply (inj pretty) in Hij as ->.
Qed.

Lemma key_rel_inj (a a' b : string) :
  key_rel f a b → key_rel f a' b → a = a'.
Proof.
  intros (i & -> & ->) (j & -> & Hij). unfold str in *.
  apply (inj pretty) in Hij. by apply (inj f) in Hij as ->.
Qed.

Lemma stmts_relabel (n : ast.node) :
  body_stmts (ast.relabel f n) = map (ast.relabel f) (body_stmts n)
  ∧ else_stmts (ast.relabel f n) = map (ast.relabel f) (else_stmts n).
Proof. by destruct n. Qed.

Lemma construct_label_relabel (n : ast.node) :
  construct_label dump (ast.relabel f n) = construct_label dump n.
Proof. destruct n; simpl; by rewrite ?dump_relabel. Qed.

Lemma stmt_lines_relabel (p1 p2 prefix : string) (l : list ast.node) :
  key_rel f p1 p2 →
  Forall2 (line_rel (key_rel f)) (stmt_lines dump p1 prefix l)
    (stmt_lines dump p2 prefix (map (ast.relabel f) l)).
Proof.
  intros Hp. unfold stmt_lines. induction l as [|s l IH]; simpl; [done|].
  rewrite dump_relabel.
  repeat constructor; auto using key_rel_key.
Qed.

Lemma lines_of_relabel (n : ast.node) :
  Forall2 (line_rel (key_rel f)) (lines_of dump n)
    (lines_of dump (ast.relabel f n)).
Proof.
  unfold lines_of. destruct (stmts_relabel n) as [-> ->].
  rewrite construct_label_relabel.
  replace (is_construct (ast.relabel f n)) with (is_construct n)
    by by destruct n.
  destruct (is_construct n); [|done].
  constructor; [constructor; apply key_rel_key|].
  apply Forall2_app; apply stmt_lines_relabel, key_rel_key.
Qed.

(** The bodies of the two graphs agree line by line, up to the names. *)
Lemma build_relabel (t : ast.node) :
  Forall2 (line_rel (key_rel f)) (body (build dump t))
    (body (build dump (ast.relabel f t))).
Proof.
  rewrite !build_body, walk_relabel.
  induction (ast.walk t) as [|n w IH]; simpl; [done|].
  apply Forall2_app; [apply lines_of_relabel | done].
Qed.

End TwoRuns.

Section RelatedBodies.
Import graphviz.

Variable R : string → string → Prop.
Hypothesis R_fun : ∀ a b b', R a b → R a b' → b = b'.
Hypothesis R_inj : ∀ a a' b, R a b → R a' b → a = a'.

Lemma related_decl_labels (b1 b2 : list line) :
  Forall2 (line_rel R) b1 b2 →
  (omap line_decl b1).*2 = (omap line_decl b2).*2.
Proof.
  induction 1 as [|l1 l2 b1 b2 Hl _ IH]; [done|].
  destruct Hl; csimpl; by rewrite IH.
Qed.

Lemma related_edges_length (b1 b2 : list line) :
  Forall2 (line_rel R) b1 b2 →
  length (omap line_edge b1) = length (omap line_edge b2).
Proof.
  induction 1 as [|l1 l2 b1 b2 Hl _ IH]; [done|].
  destruct Hl; csimpl; by rewrite IH.
Qed.

(** Related names carry the same label in the two graphs. *)
Lemma related_lookup (b1 b2 : list line) (k1 k2 : string) :
  Forall2 (line_rel R) b1 b2 → R k1 k2 →
  nodes_of b1 !! k1 = nodes_of b2 !! k2.
Proof.
  intros Hb Hk. induction Hb as [|l1 l2 b1 b2 Hl _ IH]; [done|].
  rewrite !nodes_of_cons, !lookup_union, IH.
  destruct Hl as [a1 a2 label Ha|]; simpl; [|done].
  rewrite !insert_empty. f_equal.
  destruct (decide (a1 = k1)) as [->|Hne].
  - rewrite (R_fun _ _ _ Ha Hk). by rewrite !lookup_singleton_eq.
  - rewrite !lookup_singleton_ne; [done| |done].
    intros ->. by rewrite (R_inj _ _ _ Ha Hk) in Hne.
Qed.

Lemma related_dom (b1 b2 : list line) :
  Forall2 (line_rel R) b1 b2 →
  (∀ k1, k1 ∈ dom (nodes_of b1) → ∃ k2, R k1 k2)
  ∧ (∀ k2, k2 ∈ dom (nodes_of b2) → ∃ k1, R k1 k2).
Proof.
  induction 1 as [|l1 l2 b1 b2 Hl _ [IH1 IH2]].
  { split; intros k; unfold nodes_of; simpl; by rewrite dom_empty_L. }
  rewrite !nodes_of_cons, !dom_union_L.
  split; intros k [Hk|Hk]%elem_of_union; auto;
    destruct Hl; simpl in Hk;
    rewrite ?insert_empty, ?dom_singleton_L, ?dom_empty_L in Hk;
    try (by apply not_elem_of_empty in Hk);
    apply elem_of_singleton in Hk as ->; eauto.
Qed.

(** Maps that agree on related names hold the same labels. *)
Lemma related_labels (m1 m2 : gmap string string) :
  (∀ k1, k1 ∈ dom m1 → ∃ k2, R k1 k2) →
  (∀ k2, k2 ∈ dom m2 → ∃ k1, R k1 k2) →
  (∀ k1 k2, R k1 k2 → m1 !! k1 = m2 !! k2) →
  (map_to_list m1).*2 ≡ₚ (map_to_list m2).*2.
Proof.
  revert m2. induction m1 as [|a v m Ha _ IH] using map_first_key_ind;
    intros m2 Hd1 Hd2 Hlook.
  - assert (m2 = ∅) as ->; [|done].
    apply map_empty. intros b. apply not_elem_of_dom. intros Hb.
    destruct (Hd2 b Hb) as (a & Hab).
    apply elem_of_dom in Hb as [v Hv].
    rewrite <- (Hlook a b Hab) in Hv. by rewrite lookup_empty in Hv.
  - destruct (Hd1 a) as (b & Hab).
    { rewrite dom_insert_L. apply elem_of_union. left.
      by apply elem_of_singleton. }
    assert (m2 !! b = Some v) as Hb.
    { by rewrite <- (Hlook a b Hab), lookup_insert_eq. }
    rewrite map_to_list_insert by done.
    rewrite <- (insert_delete_id m2 b v Hb).
    rewrite map_to_list_insert by apply lookup_delete_eq.
    csimpl. f_equiv. apply IH.
    + intros k1 Hk1. apply Hd1. rewrite dom_insert_L.
      apply elem_of_union. by right.
    + intros k2 Hk2. apply Hd2. rewrite dom_delete_L in Hk2.
      by apply elem_of_difference in Hk2 as [? _].
    + intros k1 k2 Hk. destruct (decide (k1 = a)) as [->|Hne].
      * rewrite (R_fun _ _ _ Hk Hab). by rewrite Ha, lookup_delete_eq.
      * rewrite lookup_delete_ne.
        -- rewrite <- (Hlook k1 k2 Hk). by rewrite lookup_insert_ne.
        -- intros ->. by rewrite (R_inj _ _ _ Hk Hab) in Hne.
Qed.

Lemma related_edge_shape (m1 m2 : gmap string string) (b1 b2 : list line) :
  (∀ k1 k2, R k1 k2 → m1 !! k1 = m2 !! k2) →
  Forall2 (line_rel R) b1 b2 →
  (λ e, (m1 !! e.1, m1 !! e.2)) <$> omap line_edge b1
  = (λ e, (m2 !! e.1, m2 !! e.2)) <$> omap line_edge b2.
Proof.
  intros Hlook. induction 1 as [|l1 l2 b1 b2 Hl _ IH]; [done|].
  destruct Hl as [|t1 t2 h1 h2 Ht Hh]; csimpl; [done|].
  by rewrite IH, (Hlook _ _ Ht), (Hlook _ _ Hh).
Qed.

End RelatedBodies.

(** * The claims *)

Import graphviz.

(** C1. Every function, conditional and loop the walk reaches gets its
    node, every statement of its body (and, for a conditional, of its else
    list) gets a node and an edge from it, and these are distinct nodes
    when the objects are distinct; the builder makes exactly one
    declaration per construct and one per such statement, one edge per such
    statement, and nothing else makes a node.  When the only construct of
    the tree is a function with [N] body statements, the graph has [1 + N]
    nodes and [N] edges, all leaving the function's node. *)
Theorem C1_construct_contributions (dump : ast.node → string)
    (t : ast.node) :
  let g := build dump t in
  (∀ c, c ∈ ast.walk t → is_construct c = true →
     key c ∈ dom (nodes g)
     ∧ (∀ s, s ∈ stmts_of c →
          key s ∈ dom (nodes g) ∧ (key c, key s) ∈ edges g)
     ∧ (NoDup (ast.obj_id <$> c :: stmts_of c) →
          size (list_to_set (key <$> c :: stmts_of c) : gset string)
          = S (length (stmts_of c))))
  ∧ length (decls g)
    = sum_list ((λ c, S (length (stmts_of c))) <$> constructs t)
  ∧ length (edges g)
    = sum_list ((λ c, length (stmts_of c)) <$> constructs t)
  ∧ (∀ k, k ∈ dom (nodes g) →
       ∃ c, c ∈ ast.walk t ∧ is_construct c = true
            ∧ (k = key c ∨ ∃ s, s ∈ stmts_of c ∧ k = key s))
  ∧ (∀ i name args body decorator_list returns type_params,
       constructs t
       = [ast.FunctionDef i name args body decorator_list returns
            type_params] →
       NoDup (i :: (ast.obj_id <$> body)) →
       size (nodes g) = S (length body)
       ∧ length (edges g) = length body
       ∧ ∀ e, e ∈ edges g → e.1 = str i).
Proof.
  intros g. split; [|split; [|split; [|split]]].
  - intros c Hc Hcon. split; [by apply construct_in_graph|].
    split; [intros s Hs; by apply stmts_in_graph|].
    intros Hnd. rewrite size_list_to_set by by apply NoDup_keys.
    by rewrite length_fmap.
  - unfold g. rewrite build_decls_constructs, length_flat_map_sum.
    f_equal. apply list_fmap_ext. intros _ c Hc%list_elem_of_lookup_2.
    apply length_decls_of. by apply constructs_elem in Hc as [_ ?].
  - unfold g. rewrite build_edges_constructs, length_flat_map_sum.
    f_equal. apply list_fmap_ext. intros _ c _. by rewrite length_fmap.
  - apply node_provenance.
  - intros i name args body decos rets tps Hone Hnd. subst g.
    destruct (single_construct_graph dump t _ Hone) as (Hsize & Hedges & _).
    { unfold stmts_of. simpl. by rewrite app_nil_r. }
    unfold stmts_of in *. simpl in *. rewrite app_nil_r in *.
    split; [done|]. split; [by rewrite Hedges, length_fmap|].
    intros e He. by rewrite (single_construct_edge_tail dump t _ e Hone He).
Qed.

Lemma C1_witness :
  let t := Examples.prog_function in
  let g := build dump_model t in
  (Examples.fun_f ∈ ast.walk t ∧ is_construct Examples.fun_f = true
   ∧ NoDup (ast.obj_id <$> Examples.fun_f :: stmts_of Examples.fun_f)
   ∧ constructs t = [Examples.fun_f])
  ∧ ("11" ∈ dom (nodes g) ∧ "13" ∈ dom (nodes g) ∧ "14" ∈ dom (nodes g))
  ∧ size ({["11"; "13"; "14"]} : gset string) = 3%nat
  ∧ length (decls g) = 3%nat
  ∧ size (nodes g) = 3%nat ∧ length (edges g) = 2%nat
  ∧ ∀ e, e ∈ edges g → e.1 = "11".
Proof.
  intros t g.
  assert (Examples.fun_f ∈ ast.walk t) as Hin.
  { apply list_elem_of_In. vm_compute. tauto. }
  assert (NoDup (ast.obj_id <$> Examples.fun_f :: stmts_of Examples.fun_f))
    as Hnd by (apply (bool_decide_unpack _); vm_compute; exact I).
  assert (constructs t = [Examples.fun_f]) as Hone by (vm_compute; reflexivity).
  destruct (C1_construct_contributions dump_model t)
    as (Hcon & Hdecls & _ & _ & Hfun).
  destruct (Hcon Examples.fun_f Hin eq_refl) as (Hf & Hs & Hdistinct).
  destruct (Hfun _ _ _ _ _ _ _ Hone Hnd) as (Hsize & Hedges & Htail).
  split; [done|]. split.
  { split; [exact Hf|]. split.
    - apply (Hs (Examples.Pass 13)). vm_compute. left.
    - apply (Hs (Examples.Return 14 (Examples.Name 15 "x"))). vm_compute.
      right. left. }
  split; [exact (Hdistinct Hnd)|].
  split; [exact Hdecls|]. split; [exact Hsize|]. split; [exact Hedges|].
  exact Htail.
Defined.

(** C3. When the only construct of the tree is a conditional with [A]
    statements in its body and [B] in its else list, the graph has
    [1 + A + B] nodes and [A + B] edges, all leaving the conditional's
    node; a body statement is labelled [Statement: ...], an else statement
    [Else Statement: ...], and no label of the second form is one of the
    first. *)
Theorem C3_if_else (dump : ast.node → string) (t : ast.node) (i : Z)
    (test : ast.node) (body orelse : list ast.node) :
  constructs t = [ast.If i test body orelse] →
  NoDup (i :: (ast.obj_id <$> body ++ orelse)) →
  let g := build dump t in
  size (nodes g) = S (length body + length orelse)
  ∧ length (edges g) = (length body + length orelse)%nat
  ∧ (∀ e, e ∈ edges g → e.1 = str i)
  ∧ nodes g !! str i = Some ("If Condition: " +:+ dump test)
  ∧ (∀ s, s ∈ body → nodes g !! key s = Some ("Statement: " +:+ dump s))
  ∧ (∀ s, s ∈ orelse →
       nodes g !! key s = Some ("Else Statement: " +:+ dump s))
  ∧ (∀ x y : string, "Else Statement: " +:+ x ≠ "Statement: " +:+ y).
Proof.
  intros Hone Hnd g.
  destruct (single_construct_graph dump t _ Hone Hnd)
    as (Hsize & Hedges & Hown & Hbody & Helse).
  unfold stmts_of in *. simpl in *. subst g.
  split; [by rewrite Hsize, length_app|].
  split; [by rewrite Hedges, length_fmap, length_app|].
  split; [intros e He; by rewrite (single_construct_edge_tail dump t _ e Hone He)|].
  done.
Qed.

Lemma C3_witness :
  let t := Examples.prog_if in
  let g := build dump_model t in
  (constructs t = [Examples.if_c] ∧ NoDup [21; 23; 25; 27])
  ∧ size (nodes g) = 4%nat ∧ length (edges g) = 3%nat
  ∧ (∀ e, e ∈ edges g → e.1 = "21")
  ∧ nodes g !! "25" = Some "Statement: Expr(value=Name(id='b'))"
  ∧ nodes g !! "27" = Some "Else Statement: Expr(value=Name(id='d'))".
Proof.
  intros t g.
  assert (constructs t = [Examples.if_c]) as Hone by (vm_compute; reflexivity).
  assert (NoDup [21; 23; 25; 27]) as Hnd
    by (apply (bool_decide_unpack _); vm_compute; exact I).
  destruct (C3_if_else dump_model t _ _ _ _ Hone Hnd)
    as (Hsize & Hedges & Htail & _ & Hbody & Helse & _).
  split; [done|]. split; [exact Hsize|]. split; [exact Hedges|].
  split; [exact Htail|]. split.
  - apply (Hbody (Examples.Expr 25 (Examples.Name 26 "b"))). right. left.
  - apply (Helse (Examples.Expr 27 (Examples.Name 28 "d"))). left.
Defined.

(** C4. When the only construct of the tree is a loop with [N] body
    statements, the graph has [1 + N] nodes and [N] edges, each from the
    loop's node to the node of a body statement, and none ends at the
    loop's node; the node of a [while] is labelled with the dump of its
    condition, the node of a [for] with the dump of its target. *)
Theorem C4_loops (dump : ast.node → string) (t : ast.node) (i : Z)
    (body orelse : list ast.node) :
  NoDup (i :: (ast.obj_id <$> body)) →
  let g := build dump t in
  (∀ test, constructs t = [ast.While i test body orelse] →
     size (nodes g) = S (length body)
     ∧ edges g = (λ s, (str i, key s)) <$> body
     ∧ (∀ e, e ∈ edges g → e.2 ≠ str i)
     ∧ nodes g !! str i = Some ("While Loop: " +:+ dump test))
  ∧ (∀ target iter, constructs t = [ast.For i target iter body orelse] →
     size (nodes g) = S (length body)
     ∧ edges g = (λ s, (str i, key s)) <$> body
     ∧ (∀ e, e ∈ edges g → e.2 ≠ str i)
     ∧ nodes g !! str i = Some ("For Loop: " +:+ dump target)).
Proof.
  intros Hnd g.
  assert (∀ e, e ∈ (λ s, (str i, key s)) <$> body → e.2 ≠ str i) as Hback.
  { intros e (s & -> & Hs)%list_elem_of_fmap Heq. simpl in Heq.
    unfold key, str in Heq. apply (inj pretty) in Heq.
    apply NoDup_cons in Hnd as [Hi _].
    apply Hi. rewrite <- Heq. by apply list_elem_of_fmap_2. }
  split.
  - intros test Hone.
    destruct (single_construct_graph dump t _ Hone)
      as (Hsize & Hedges & Hown & _).
    { unfold stmts_of. simpl. by rewrite app_nil_r. }
    unfold stmts_of in *. simpl in *. rewrite app_nil_r in *. subst g.
    rewrite Hedges. done.
  - intros target iter Hone.
    destruct (single_construct_graph dump t _ Hone)
      as (Hsize & Hedges & Hown & _).
    { unfold stmts_of. simpl. by rewrite app_nil_r. }
    unfold stmts_of in *. simpl in *. rewrite app_nil_r in *. subst g.
    rewrite Hedges. done.
Qed.

Lemma C4_witness :
  (NoDup [31; 33; 34] ∧ constructs Examples.prog_while = [Examples.while_c]
   ∧ NoDup [41; 44] ∧ constructs Examples.prog_for = [Examples.for_x])
  ∧ (let g := build dump_model Examples.prog_while in
     size (nodes g) = 3%nat
     ∧ edges g = [("31", "33"); ("31", "34")]
     ∧ (∀ e, e ∈ edges g → e.2 ≠ "31")
     ∧ nodes g !! "31" = Some "While Loop: Name(id='c')")
  ∧ (let g := build dump_model Examples.prog_for in
     size (nodes g) = 2%nat
     ∧ edges g = [("41", "44")]
     ∧ (∀ e, e ∈ edges g → e.2 ≠ "41")
     ∧ nodes g !! "41" = Some "For Loop: Name(id='x')").
Proof.
  assert (NoDup [31; 33; 34]) as Hw
    by (apply (bool_decide_unpack _); vm_compute; exact I).
  assert (NoDup [41; 44]) as Hf
    by (apply (bool_decide_unpack _); vm_compute; exact I).
  assert (constructs Examples.prog_while = [Examples.while_c]) as Hcw
    by (vm_compute; reflexivity).
  assert (constructs Examples.prog_for = [Examples.for_x]) as Hcf
    by (vm_compute; reflexivity).
  split; [done|]. split.
  - destruct (C4_loops dump_model Examples.prog_while 31
                [Examples.Pass 33; Examples.Pass 34] [] Hw) as [Hwhile _].
    exact (Hwhile _ Hcw).
  - destruct (C4_loops dump_model Examples.prog_for 41
                [Examples.Pass 44] [] Hf) as [_ Hfor].
    exact (Hfor _ _ Hcf).
Defined.

(** C5. The name [add_cfg_node] gives a node is the decimal numeral of
    the identity of the syntax object, whatever the label: two objects get
    the same name exactly when they have the same identity.  Two objects
    with the same syntax and different identities get two nodes, each with
    its label; declaring an object again returns the same name and leaves
    the set of nodes as it was. *)
Theorem C5_identity_keys (a b : ast.node) (la lb : string) (d : Digraph) :
  let ka := (add_cfg_node a la d).1 in
  let da := (add_cfg_node a la d).2 in
  let kb := (add_cfg_node b lb da).1 in
  let dab := (add_cfg_node b lb da).2 in
  ka = str (ast.obj_id a)
  ∧ (ka = kb ↔ ast.obj_id a = ast.obj_id b)
  ∧ (ast.same_syntax a b → ast.obj_id a ≠ ast.obj_id b →
       ka ≠ kb ∧ nodes dab !! ka = Some la ∧ nodes dab !! kb = Some lb)
  ∧ (ast.obj_id a = ast.obj_id b →
       kb = ka ∧ dom (nodes dab) = dom (nodes da)
       ∧ nodes dab !! ka = Some lb).
Proof.
  intros ka da kb dab. subst ka da kb dab. rewrite !add_cfg_node_spec. simpl.
  assert (∀ k l d', nodes (append_lines d' [node_line k l])
                    = <[k := l]> (nodes d')) as Hnodes.
  { intros k l d'. unfold nodes, append_lines. simpl.
    rewrite nodes_of_app. unfold nodes_of at 1. simpl.
    by rewrite insert_empty, <- insert_union_singleton_l. }
  rewrite !Hnodes.
  assert (key a = key b ↔ ast.obj_id a = ast.obj_id b) as Hkey.
  { split; [apply key_inj | unfold key; by intros ->]. }
  split; [done|]. split; [done|]. split.
  - intros _ Hne. assert (key a ≠ key b) as Hk by (by rewrite Hkey).
    split; [done|]. split.
    + rewrite lookup_insert_ne by done. apply lookup_insert_eq.
    + apply lookup_insert_eq.
  - intros Heq%Hkey. rewrite <- Heq. split; [done|].
    split; [|apply lookup_insert_eq].
    by rewrite insert_insert_eq, !dom_insert_L.
Qed.

Lemma C5_witness :
  let a := Examples.Pass 33 in
  let b := Examples.Pass 34 in
  let d := graphviz.new "Control Flow Graph" in
  let da := (add_cfg_node a "first" d).2 in
  (ast.same_syntax a b ∧ ast.obj_id a ≠ ast.obj_id b
   ∧ ast.obj_id a = ast.obj_id a)
  ∧ ("33" ≠ "34"
     ∧ nodes (add_cfg_node b "second" da).2 !! "33" = Some "first"
     ∧ nodes (add_cfg_node b "second" da).2 !! "34" = Some "second")
  ∧ ((add_cfg_node a "again" da).1 = "33"
     ∧ dom (nodes (add_cfg_node a "again" da).2) = dom (nodes da)
     ∧ nodes (add_cfg_node a "again" da).2 !! "33" = Some "again").
Proof.
  intros a b d da.
  assert (ast.same_syntax a b) as Hsyn by reflexivity.
  assert (ast.obj_id a ≠ ast.obj_id b) as Hne by (vm_compute; discriminate).
  split; [done|]. split.
  - destruct (C5_identity_keys a b "first" "second" d) as (_ & _ & Hdiff & _).
    exact (Hdiff Hsyn Hne).
  - destruct (C5_identity_keys a a "first" "again" d) as (_ & _ & _ & Hsame).
    exact (Hsame eq_refl).
Defined.

Lemma constructs_construct_free (t : ast.node) :
  construct_free t → constructs t = [].
Proof.
  intros Hfree. apply walk_todo_construct_free. by apply Forall_singleton.
Qed.

(** C6. An object of any other class adds nothing to the graph, and a
    text whose tree holds no function, conditional or loop yields a graph
    without nodes and without edges. *)
Theorem C6_no_constructs (dump : ast.node → string)
    (parse : string → exn + ast.node) (code : string) (t : ast.node) :
  parse code = inr t → construct_free t →
  (∀ n d, is_construct n = false → visit dump n d = (tt, d))
  ∧ ∃ g, generate_cfg dump parse code = inr g
         ∧ body g = [] ∧ nodes g = ∅ ∧ edges g = [].
Proof.
  intros Hparse Hfree. split.
  - intros n d Hn. rewrite visit_spec.
    by rewrite lines_of_not_construct, append_lines_nil.
  - exists (build dump t). unfold generate_cfg. rewrite Hparse.
    assert (body (build dump t) = []) as Hbody.
    { by rewrite build_body_constructs, constructs_construct_free. }
    unfold nodes, edges. by rewrite Hbody.
Qed.

Lemma prog_plain_construct_free : construct_free Examples.prog_plain.
Proof.
  intros x Hx%subnode_walk. vm_compute in Hx.
  repeat (apply elem_of_cons in Hx as [->|Hx]; [reflexivity|]).
  by apply elem_of_nil in Hx.
Defined.

Lemma C6_witness :
  (Examples.parse_one "x; pass" = inr Examples.prog_plain
   ∧ construct_free Examples.prog_plain
   ∧ is_construct (Examples.Pass 63) = false)
  ∧ visit dump_model (Examples.Pass 63) (graphviz.new "g")
    = (tt, graphviz.new "g")
  ∧ ∃ g, generate_cfg dump_model Examples.parse_one "x; pass" = inr g
         ∧ body g = [] ∧ nodes g = ∅ ∧ edges g = [].
Proof.
  split; [split; [reflexivity | split; [exact prog_plain_construct_free|]]|].
  { reflexivity. }
  destruct (C6_no_constructs dump_model Examples.parse_one "x; pass"
              Examples.prog_plain eq_refl prog_plain_construct_free)
    as [Hvisit Hgraph].
  split; [|exact Hgraph].
  exact (Hvisit (Examples.Pass 63) (graphviz.new "g") eq_refl).
Defined.

(** C9. When the parser raises, [generate_cfg] raises the same exception
    and returns no graph, so no node and no edge exists; [main] does not
    catch it either: the exception leaves [main] with the world as it was
    before the call. *)
Theorem C9_parse_failure (dump : ast.node → string)
    (parse : string → exn + ast.node) (code : string) (e : exn) :
  parse code = inl e →
  generate_cfg dump parse code = inl e
  ∧ (∀ g, generate_cfg dump parse code ≠ inr g)
  ∧ (∀ render objgraph_snapshot exec_and_plot argv w input_file,
       argv !! 1%nat = Some input_file →
       files w !! input_file = Some code →
       main dump parse render objgraph_snapshot exec_and_plot argv w
       = (inl e, w)).
Proof.
  intros Hfail. unfold generate_cfg. rewrite Hfail. split; [done|].
  split; [intros g; discriminate|].
  intros render snap plot argv w input_file Harg Hfile.
  assert (¬ (length argv < 2)%nat) as Hlen.
  { apply lookup_lt_Some in Harg. lia. }
  unfold main, mbind, io_bind, generate_cfg.
  rewrite bool_decide_eq_false_2 by done. rewrite Harg. simpl.
  unfold os_path_isfile.
  rewrite bool_decide_eq_true_2 by (left; by rewrite Hfile).
  simpl. unfold load_code. by rewrite Hfile, Hfail.
Qed.

Lemma C9_witness :
  let w := {| files := {["bad.py" := "def f(:"]}; unreadable := ∅; stdout := [] |} in
  Examples.parse_one "def f(:" = inl (SyntaxError "invalid syntax")
  ∧ generate_cfg dump_model Examples.parse_one "def f(:"
    = inl (SyntaxError "invalid syntax")
  ∧ (∀ g, generate_cfg dump_model Examples.parse_one "def f(:" ≠ inr g)
  ∧ main dump_model Examples.parse_one Examples.render_png Examples.writes
      Examples.plot ["analyze_code.py"; "bad.py"] w
    = (inl (SyntaxError "invalid syntax"), w).
Proof.
  intros w. split; [reflexivity|].
  destruct (C9_parse_failure dump_model Examples.parse_one "def f(:" _ eq_refl)
    as (Hraise & Hnone & Hmain).
  split; [exact Hraise|]. split; [exact Hnone|].
  exact (Hmain Examples.render_png Examples.writes Examples.plot
           ["analyze_code.py"; "bad.py"] w "bad.py" eq_refl eq_refl).
Defined.

(** A graph is returned only for a text that parses, and it is the graph
    built from the parsed tree. *)
Lemma generate_cfg_returns (dump : ast.node → string)
    (parse : string → exn + ast.node) (code : string) (g : Digraph) :
  generate_cfg dump parse code = inr g ↔
  ∃ t, parse code = inr t ∧ g = build dump t.
Proof.
  unfold generate_cfg. destruct (parse code) as [e|t]; split.
  - discriminate.
  - by intros (t & ? & _).
  - intros [= <-]. by exists t.
  - by intros (t' & [= <-] & ->).
Qed.

(** C8, as stated, fails: [locked.py] is a regular file that cannot be
    read, so it does not resolve to a readable file; [main] passes the
    [os.path.isfile] guard, [load_code] raises, and no file-not-found line
    is printed. *)
Lemma C8_counterexample :
  ¬ file_not_found_contract
      (main dump_model Examples.parse_one Examples.render_png Examples.writes
         Examples.plot).
Proof.
  intros Hcontract.
  destruct (Hcontract ["analyze_code.py"; "locked.py"]
              {| files := ∅; unreadable := {["locked.py"]}; stdout := [] |}
              "locked.py" eq_refl (lookup_empty _)) as (_ & _ & Hout).
  vm_compute in Hout. discriminate Hout.
Qed.

(** C8, amended. Without an argument [main] prints the usage line, and
    with an argument that is not the path of a regular file it prints the
    file-not-found line; with the path of a regular file that cannot be
    read it prints nothing and the error raised by reading it leaves [main]
    uncaught.  In the three cases the exit status is 1 and the files are
    left as they were, so none of the three images is written. *)
Theorem C8_bad_invocation (dump : ast.node → string)
    (parse : string → exn + ast.node)
    (render : Digraph → string → IO unit)
    (objgraph_snapshot : string → IO unit)
    (exec_and_plot : string → string → IO unit)
    (argv : list string) (w : World) :
  let run := main dump parse render objgraph_snapshot exec_and_plot argv w in
  ((length argv < 2)%nat →
     exit_status run.1 = 1 ∧ files run.2 = files w
     ∧ unreadable run.2 = unreadable w
     ∧ stdout run.2
       = stdout w ++ ["Usage: python analyze_code.py <python_file>"])
  ∧ (∀ input_file, argv !! 1%nat = Some input_file →
       files w !! input_file = None → input_file ∉ unreadable w →
       exit_status run.1 = 1 ∧ files run.2 = files w
       ∧ unreadable run.2 = unreadable w
       ∧ stdout run.2 = stdout w ++ ["File not found: " +:+ input_file])
  ∧ (∀ input_file, argv !! 1%nat = Some input_file →
       files w !! input_file = None → input_file ∈ unreadable w →
       run = (inl (OSError input_file), w) ∧ exit_status run.1 = 1).
Proof.
  intros run. subst run. unfold main. split; [|split].
  - intros Hlen. unfold mbind, io_bind. rewrite bool_decide_eq_true_2 by done.
    done.
  - intros input_file Harg Hfile Hnot.
    assert (¬ (length argv < 2)%nat) as Hlen.
    { apply lookup_lt_Some in Harg. lia. }
    unfold mbind, io_bind. rewrite bool_decide_eq_false_2 by done.
    rewrite Harg. simpl. unfold os_path_isfile.
    rewrite bool_decide_eq_false_2; [done|].
    rewrite Hfile. by intros [[? ?]|?].
  - intros input_file Harg Hfile Hlocked.
    assert (¬ (length argv < 2)%nat) as Hlen.
    { apply lookup_lt_Some in Harg. lia. }
    unfold mbind, io_bind. rewrite bool_decide_eq_false_2 by done.
    rewrite Harg. simpl. unfold os_path_isfile.
    rewrite bool_decide_eq_true_2 by by right.
    simpl. unfold load_code. by rewrite Hfile.
Qed.

Lemma C8_witness :
  let w := {| files := {["prog.py" := "x; pass"]};
              unreadable := {["locked.py"]}; stdout := [] |} in
  let run argv :=
    main dump_model Examples.parse_one Examples.render_png Examples.writes
      Examples.plot argv w in
  ((length ["analyze_code.py"] < 2)%nat
   ∧ ["analyze_code.py"; "missing.py"] !! 1%nat = Some "missing.py"
   ∧ files w !! "missing.py" = None ∧ ("missing.py" ∉ unreadable w)
   ∧ files w !! "locked.py" = None ∧ "locked.py" ∈ unreadable w)
  ∧ (exit_status (run ["analyze_code.py"]).1 = 1
     ∧ files (run ["analyze_code.py"]).2 = files w
     ∧ unreadable (run ["analyze_code.py"]).2 = unreadable w
     ∧ stdout (run ["analyze_code.py"]).2
       = ["Usage: python analyze_code.py <python_file>"])
  ∧ (exit_status (run ["analyze_code.py"; "missing.py"]).1 = 1
     ∧ files (run ["analyze_code.py"; "missing.py"]).2 = files w
     ∧ unreadable (run ["analyze_code.py"; "missing.py"]).2 = unreadable w
     ∧ stdout (run ["analyze_code.py"; "missing.py"]).2
       = ["File not found: missing.py"])
  ∧ (run ["analyze_code.py"; "locked.py"] = (inl (OSError "locked.py"), w)
     ∧ exit_status (run ["analyze_code.py"; "locked.py"]).1 = 1).
Proof.
  intros w run.
  assert (length ["analyze_code.py"] < 2)%nat as Hlen by (simpl; lia).
  assert (files w !! "missing.py" = None) as Hmiss by reflexivity.
  assert ("missing.py" ∉ unreadable w) as Hnot.
  { simpl. intros Hin%elem_of_singleton. discriminate Hin. }
  assert (files w !! "locked.py" = None) as Hnone by reflexivity.
  assert ("locked.py" ∈ unreadable w) as Hlocked.
  { simpl. by apply elem_of_singleton. }
  split; [done|]. split; [|split].
  - destruct (C8_bad_invocation dump_model Examples.parse_one
                Examples.render_png Examples.writes Examples.plot
                ["analyze_code.py"] w) as (Hno & _ & _).
    exact (Hno Hlen).
  - destruct (C8_bad_invocation dump_model Examples.parse_one
                Examples.render_png Examples.writes Examples.plot
                ["analyze_code.py"; "missing.py"] w) as (_ & Hnf & _).
    exact (Hnf "missing.py" eq_refl Hmiss Hnot).
  - destruct (C8_bad_invocation dump_model Examples.parse_one
                Examples.render_png Examples.writes Examples.plot
                ["analyze_code.py"; "locked.py"] w) as (_ & _ & Hlock).
    exact (Hlock "locked.py" eq_refl Hnone Hlocked).
Defined.

Lemma stmt_lines_elem (dump : ast.node → string) (parent prefix : string)
    (stmts : list ast.node) (s : ast.node) :
  s ∈ stmts →
  node_line (key s) (prefix +:+ dump s)
  ∈ stmt_lines dump parent prefix stmts.
Proof.
  intros Hs. unfold stmt_lines. apply elem_of_flat_map. exists s.
  split; [done | left].
Qed.

(** Two declarations of one name, when a statement of a construct the walk
    reaches is a construct itself. *)
Lemma nested_declared_twice (dump : ast.node → string) (t c s : ast.node)
    (label : string) :
  c ∈ ast.walk t → s ∈ stmts_of c → is_construct s = true →
  node_line (key s) label ∈ lines_of dump c →
  declared_twice (build dump t) (key s) label (construct_label dump s).
Proof.
  intros Hc Hs Hcon Hline.
  apply list_elem_of_split in Hc as (l1 & l2 & Hw).
  assert (s ∈ l2) as Hs2.
  { eapply walk_children_later; [done | by apply stmts_of_children]. }
  apply list_elem_of_split in Hs2 as (l3 & l4 & ->).
  apply list_elem_of_split in Hline as (a & b & Hlines).
  unfold declared_twice. rewrite build_body, Hw.
  exists (flat_map (lines_of dump) l1 ++ a),
    (b ++ flat_map (lines_of dump) l3),
    (stmt_lines dump (key s) "Statement: " (body_stmts s)
     ++ stmt_lines dump (key s) "Else Statement: " (else_stmts s)
     ++ flat_map (lines_of dump) l4).
  rewrite flat_map_app. simpl. rewrite flat_map_app. simpl.
  rewrite Hlines. unfold lines_of at 3. rewrite Hcon.
  by rewrite <- !app_assoc, <- !app_comm_cons, <- !app_assoc.
Qed.

(** C10. A conditional or loop that is an immediate statement of a
    construct the walk reaches is declared twice under one name: first by
    the enclosing construct, as a [Statement: ] or [Else Statement: ]
    child, then by itself with its own, different label.  The graph keeps
    one node of that name, which carries the own label, and the construct
    has its edges to its own statements. *)
Theorem C10_nested_construct (dump : ast.node → string) (t c s : ast.node) :
  id_sound t → c ∈ ast.walk t → s ∈ stmts_of c →
  is_branch_or_loop s = true →
  let g := build dump t in
  (s ∈ body_stmts c →
     declared_twice g (key s) ("Statement: " +:+ dump s)
       (construct_label dump s))
  ∧ (s ∈ else_stmts c →
     declared_twice g (key s) ("Else Statement: " +:+ dump s)
       (construct_label dump s))
  ∧ "Statement: " +:+ dump s ≠ construct_label dump s
  ∧ "Else Statement: " +:+ dump s ≠ construct_label dump s
  ∧ nodes g !! key s = Some (construct_label dump s)
  ∧ ∀ y, y ∈ stmts_of s → (key s, key y) ∈ edges g.
Proof.
  intros Hsound Hc Hs Hloop g. subst g.
  assert (is_construct s = true) as Hcon by by destruct s.
  assert (is_construct c = true) as Hccon.
  { destruct c; try done. by apply elem_of_nil in Hs. }
  assert (s ∈ ast.walk t) as Hsw.
  { eapply walk_child; [done | by apply stmts_of_children]. }
  split; [|split; [|split; [|split; [|split]]]].
  - intros Hb. apply (nested_declared_twice dump t c); try done.
    unfold lines_of. rewrite Hccon. right. apply elem_of_app. left.
    by apply stmt_lines_elem.
  - intros He. apply (nested_declared_twice dump t c); try done.
    unfold lines_of. rewrite Hccon. right. apply elem_of_app. right.
    by apply stmt_lines_elem.
  - by destruct s.
  - by destruct s.
  - unfold nodes. rewrite build_body.
    apply (last_declaration dump s (ast.walk t)); try done.
    + intros l1 x l2 Hw y Hy. by eapply walk_children_later.
    + intros x Hx Heq. by apply Hsound.
    + apply Exists_exists. by exists s.
  - intros y Hy. by apply stmts_in_graph.
Qed.

Lemma C10_witness :
  let t := Examples.prog_nested in
  let g := build dump_model t in
  (id_sound t
   ∧ Examples.while_nested ∈ ast.walk t
   ∧ Examples.if_a ∈ body_stmts Examples.while_nested
   ∧ Examples.if_a ∈ ast.walk t
   ∧ Examples.elif_b ∈ else_stmts Examples.if_a)
  ∧ declared_twice g "53"
      ("Statement: " +:+ dump_model Examples.if_a)
      "If Condition: Name(id='a')"
  ∧ declared_twice g "57"
      ("Else Statement: " +:+ dump_model Examples.elif_b)
      "If Condition: Name(id='b')"
  ∧ nodes g !! "53" = Some "If Condition: Name(id='a')"
  ∧ nodes g !! "57" = Some "If Condition: Name(id='b')"
  ∧ ("53", "55") ∈ edges g ∧ ("53", "57") ∈ edges g
  ∧ ("57", "59") ∈ edges g.
Proof.
  intros t g.
  assert (id_sound t) as Hsound.
  { apply id_sound_NoDup, (bool_decide_unpack _). vm_compute. exact I. }
  assert (Examples.while_nested ∈ ast.walk t) as Hw.
  { apply list_elem_of_In. vm_compute. tauto. }
  assert (Examples.if_a ∈ ast.walk t) as Hi.
  { apply list_elem_of_In. vm_compute. tauto. }
  assert (Examples.if_a ∈ body_stmts Examples.while_nested) as Hb
    by (vm_compute; left).
  assert (Examples.elif_b ∈ else_stmts Examples.if_a) as He
    by (vm_compute; left).
  split; [done|].
  destruct (C10_nested_construct dump_model t Examples.while_nested
              Examples.if_a Hsound Hw) as (Htw1 & _ & _ & _ & Hl1 & He1);
    [apply elem_of_app; by left | reflexivity |].
  destruct (C10_nested_construct dump_model t Examples.if_a
              Examples.elif_b Hsound Hi) as (_ & Htw2 & _ & _ & Hl2 & He2);
    [apply elem_of_app; by right | reflexivity |].
  split; [exact (Htw1 Hb)|]. split; [exact (Htw2 He)|].
  split; [exact Hl1|]. split; [exact Hl2|].
  split; [apply (He1 (Examples.Pass 55)); vm_compute; left|].
  split; [apply (He1 Examples.elif_b); vm_compute; right; left|].
  apply (He2 (Examples.Pass 59)). vm_compute. left.
Defined.

(** C7. Two runs on the same text, whose parsers return the same tree up
    to the identities of its objects, both raise the same exception or
    return graphs with the same labels, declaration by declaration and
    node by node, the same number of edges, and the same edges when each
    is read as the labels of the two nodes it joins; the bodies agree line
    by line up to the names of the nodes. *)
Theorem C7_run_independent (dump : ast.node → string) (f : Z → Z)
    (parse1 parse2 : string → exn + ast.node) (code : string) :
  Inj (=) (=) f →
  (∀ n, dump (ast.relabel f n) = dump n) →
  parse2 code = match parse1 code with
                | inl e => inl e
                | inr t => inr (ast.relabel f t)
                end →
  match generate_cfg dump parse1 code, generate_cfg dump parse2 code with
  | inr g1, inr g2 =>
      (decls g1).*2 = (decls g2).*2
      ∧ node_labels g1 ≡ₚ node_labels g2
      ∧ length (edges g1) = length (edges g2)
      ∧ edge_shape g1 = edge_shape g2
      ∧ Forall2 (line_rel (key_rel f)) (body g1) (body g2)
  | inl e1, inl e2 => e1 = e2
  | _, _ => False
  end.
Proof.
  intros Hf Hdump Hparse. unfold generate_cfg. rewrite Hparse.
  destruct (parse1 code) as [e|t]; [done|].
  pose proof (build_relabel dump f Hdump t) as Hbody.
  pose proof (key_rel_fun f) as Hfun.
  pose proof (key_rel_inj f Hf) as Hinj.
  assert (∀ k1 k2, key_rel f k1 k2 →
            nodes (build dump t) !! k1
            = nodes (build dump (ast.relabel f t)) !! k2) as Hlook.
  { intros k1 k2 Hk. by apply (related_lookup (key_rel f)). }
  destruct (related_dom (key_rel f) _ _ Hbody) as [Hd1 Hd2].
  split; [by apply (related_decl_labels (key_rel f))|].
  split.
  { by apply (related_labels (key_rel f)). }
  split; [by apply (related_edges_length (key_rel f))|].
  split; [|done].
  by apply (related_edge_shape (key_rel f)).
Qed.

Lemma add_1000_inj : Inj (=) (=) (Z.add 1000).
Proof. intros x y Heq. lia. Defined.

Lemma C7_witness :
  let g1 := build dump_model Examples.prog_while in
  let g2 := build dump_model (ast.relabel (Z.add 1000) Examples.prog_while) in
  (generate_cfg dump_model Examples.parse_run1 "while c: pass; pass" = inr g1
   ∧ generate_cfg dump_model Examples.parse_run2 "while c: pass; pass"
     = inr g2
   ∧ nodes g1 !! "31" = Some "While Loop: Name(id='c')"
   ∧ nodes g2 !! "1031" = Some "While Loop: Name(id='c')")
  ∧ (decls g1).*2 = (decls g2).*2
  ∧ node_labels g1 ≡ₚ node_labels g2
  ∧ length (edges g1) = length (edges g2)
  ∧ edge_shape g1 = edge_shape g2
  ∧ Forall2 (line_rel (key_rel (Z.add 1000))) (body g1) (body g2).
Proof.
  intros g1 g2. split.
  { repeat split; vm_compute; reflexivity. }
  exact (C7_run_independent dump_model (Z.add 1000) Examples.parse_run1
           Examples.parse_run2 "while c: pass; pass" add_1000_inj
           (dump_model_relabel (Z.add 1000)) eq_refl).
Defined.

(** * Further properties of the builder *)

Section DeclaredBeforeUse.

Variable dump : ast.node → string.

Lemma declared_before_use_mono (D D' : gset string) (ls : list line) :
  D ⊆ D' → declared_before_use D ls → declared_before_use D' ls.
Proof.
  revert D D'. induction ls as [|[k v|a b] ls IH]; intros D D' Hsub; simpl.
  - done.
  - apply IH. by apply union_mono_l.
  - intros (Ha & Hb & Hls). split; [by apply Hsub|].
    split; [by apply Hsub | by apply (IH D)].
Qed.

Lemma declared_before_use_app (D : gset string) (l1 l2 : list line) :
  declared_before_use D l1 →
  (∀ D', D ⊆ D' → declared_before_use D' l2) →
  declared_before_use D (l1 ++ l2).
Proof.
  revert D. induction l1 as [|[k v|a b] l1 IH]; intros D H1 H2; simpl in *.
  - by apply H2.
  - apply IH; [done|]. intros D' HD. apply H2.
    etrans; [|exact HD]. apply union_subseteq_r.
  - destruct H1 as (Ha & Hb & H1). auto.
Qed.

Lemma declared_before_use_stmt_lines (D : gset string)
    (parent prefix : string) (stmts : list ast.node) :
  parent ∈ D → declared_before_use D (stmt_lines dump parent prefix stmts).
Proof.
  unfold stmt_lines. revert D.
  induction stmts as [|s stmts IH]; intros D Hp; simpl; [done|].
  assert (parent ∈ {[key s]} ∪ D) as Hp' by (apply elem_of_union; by right).
  split; [done|]. split; [|by apply IH].
  apply elem_of_union. left. by apply elem_of_singleton.
Qed.

Lemma declared_before_use_lines_of (D : gset string) (n : ast.node) :
  declared_before_use D (lines_of dump n).
Proof.
  unfold lines_of. destruct (is_construct n); [|done]. simpl.
  assert (key n ∈ {[key n]} ∪ D) as Hk.
  { apply elem_of_union. left. by apply elem_of_singleton. }
  apply declared_before_use_app.
  - by apply declared_before_use_stmt_lines.
  - intros D' HD. apply declared_before_use_stmt_lines. by apply HD.
Qed.

End DeclaredBeforeUse.

(** X1. Wherever a function, conditional or loop sits in the tree, also
    inside a class, a [with], a [try] or the else list of a loop, the graph
    has its node, labelled with its own label, and an edge from it to the
    node of each statement of its lists. *)
Theorem construct_own_node (dump : ast.node → string) (t c : ast.node) :
  id_sound t → ast.subnode c t → is_construct c = true →
  let g := build dump t in
  nodes g !! key c = Some (construct_label dump c)
  ∧ ∀ s, s ∈ stmts_of c →
      key s ∈ dom (nodes g) ∧ (key c, key s) ∈ edges g.
Proof.
  intros Hsound Hsub Hcon g. subst g. apply subnode_walk in Hsub.
  split; [|intros s Hs; by apply stmts_in_graph].
  unfold nodes. rewrite build_body.
  apply (last_declaration dump c (ast.walk t)); try done.
  - intros l1 x l2 Hw y Hy. by eapply walk_children_later.
  - intros x Hx Heq. by apply Hsound.
  - apply Exists_exists. by exists c.
Qed.

Lemma construct_own_node_witness :
  let t := MoreExamples.prog_class in
  let g := build dump_model t in
  (id_sound t ∧ ast.subnode MoreExamples.method_m t
   ∧ is_construct MoreExamples.method_m = true)
  ∧ nodes g !! "82" = Some "Function: m"
  ∧ "84" ∈ dom (nodes g) ∧ ("82", "84") ∈ edges g.
Proof.
  intros t g.
  assert (id_sound t) as Hsound.
  { apply id_sound_NoDup, (bool_decide_unpack _). vm_compute. exact I. }
  assert (ast.subnode MoreExamples.method_m t) as Hsub.
  { apply (ast.subnode_child _ _ MoreExamples.class_A); [simpl; left|].
    apply (ast.subnode_child _ _ MoreExamples.method_m); [simpl; left|].
    constructor. }
  split; [done|].
  destruct (construct_own_node dump_model t MoreExamples.method_m
              Hsound Hsub eq_refl) as [Hlabel Hstmts].
  split; [exact Hlabel|].
  apply (Hstmts (Examples.Pass 84)). simpl. left.
Defined.

(** X2. Read in order, the body of the graph never names a node in an
    edge before declaring it, so no edge makes a node of its own: both
    ends of every edge are declared nodes. *)
Theorem edges_use_declared_names (dump : ast.node → string) (t : ast.node) :
  let g := build dump t in
  declared_before_use ∅ (body g)
  ∧ ∀ e, e ∈ edges g → e.1 ∈ dom (nodes g) ∧ e.2 ∈ dom (nodes g).
Proof.
  intros g. subst g. split.
  - rewrite build_body. generalize (∅ : gset string).
    induction (ast.walk t) as [|n w IH]; intros D; simpl; [done|].
    apply declared_before_use_app; [apply declared_before_use_lines_of|].
    intros D' _. apply IH.
  - intros e (c & s & Hc & Hs & ->)%elem_of_edges. simpl. split.
    + apply construct_in_graph; [done|].
      destruct c; try done. by apply elem_of_nil in Hs.
    + by destruct (stmts_in_graph dump t c s Hc Hs).
Qed.

Section EdgesDescend.

Lemma key_size_walk (t x : ast.node) :
  id_sound t → x ∈ ast.walk t → key_size t (key x) = ast.size x.
Proof.
  intros Hsound Hx. unfold key_size.
  destruct (list_find_elem_of (λ y, key y = key x) (ast.walk t) x Hx eq_refl)
    as [[i y] Hfind].
  rewrite Hfind. apply list_find_Some in Hfind as (Hy & Hk & _).
  apply list_elem_of_lookup_2 in Hy. apply key_inj in Hk.
  by rewrite (Hsound y x Hy Hx Hk).
Qed.

End EdgesDescend.

(** X3. Every edge goes from the node of an object to the node of a
    strictly smaller object below it: the graph has no cycle, no edge back
    to a loop and no edge from a node to itself. *)
Theorem edges_descend (dump : ast.node → string) (t : ast.node) :
  id_sound t →
  let g := build dump t in
  (∀ x, x ∈ ast.walk t → key_size t (key x) = ast.size x)
  ∧ (∀ e, e ∈ edges g → (key_size t e.2 < key_size t e.1)%nat)
  ∧ (∀ e, e ∈ edges g → e.1 ≠ e.2).
Proof.
  intros Hsound g. subst g.
  assert (∀ e, e ∈ edges (build dump t) →
            (key_size t e.2 < key_size t e.1)%nat) as Hlt.
  { intros e (c & s & Hc & Hs & ->)%elem_of_edges. simpl.
    apply (stmts_of_children dump) in Hs.
    assert (s ∈ ast.walk t) as Hsw by by eapply walk_child.
    rewrite (key_size_walk t s), (key_size_walk t c) by done.
    by apply size_child. }
  split; [intros x Hx; by apply key_size_walk|]. split; [done|].
  intros e He Heq. apply Hlt in He. rewrite Heq in He. lia.
Qed.

Lemma edges_descend_witness :
  let t := Examples.prog_nested in
  let g := build dump_model t in
  id_sound t
  ∧ key_size t "51" = 8%nat ∧ key_size t "53" = 6%nat
  ∧ (∀ e, e ∈ edges g → (key_size t e.2 < key_size t e.1)%nat)
  ∧ (∀ e, e ∈ edges g → e.1 ≠ e.2).
Proof.
  intros t g.
  assert (id_sound t) as Hsound.
  { apply id_sound_NoDup, (bool_decide_unpack _). vm_compute. exact I. }
  split; [done|]. split; [vm_compute; reflexivity|].
  split; [vm_compute; reflexivity|].
  exact (proj2 (edges_descend dump_model t Hsound)).
Defined.

(** ** Trees whose statements are distinct objects *)

Section DistinctStatements.

Lemma walk_todo_perm (fuel : nat) (q : list ast.node) :
  (ast.todo_size q ≤ fuel)%nat →
  ast.walk_todo fuel q
  ≡ₚ q ++ flat_map ast.iter_child_nodes (ast.walk_todo fuel q).
Proof.
  revert q. induction fuel as [|fuel IH]; intros [|n q] Hq; simpl; try done.
  - rewrite todo_size_cons in Hq. pose proof (size_pos n). lia.
  - rewrite todo_size_cons, size_children in Hq. f_equiv.
    etrans; [apply IH; rewrite todo_size_app; lia|].
    by rewrite <- app_assoc.
Qed.

(** The walk yields the root and the children of what it yields, each
    once per place in the tree. *)
Lemma walk_perm (t : ast.node) :
  ast.walk t ≡ₚ t :: flat_map ast.iter_child_nodes (ast.walk t).
Proof.
  apply (walk_todo_perm (ast.size t) [t]). unfold ast.todo_size. simpl. lia.
Qed.

Lemma flat_map_submseteq {A B} (f g : A → list B) (l : list A) :
  (∀ x, f x ⊆+ g x) → flat_map f l ⊆+ flat_map g l.
Proof.
  intros Hfg. induction l as [|a l IH]; simpl; [done|].
  by apply submseteq_app.
Qed.

Lemma NoDup_submseteq_mono {A} (l k : list A) : l ⊆+ k → NoDup k → NoDup l.
Proof.
  intros (k' & Hk)%submseteq_Permutation. rewrite Hk.
  by intros (? & _)%NoDup_app.
Qed.

Lemma filter_all {A} (P : A → Prop) `{!∀ x, Decision (P x)} (l : list A) :
  (∀ x, x ∈ l → P x) → filter P l = l.
Proof.
  induction l as [|a l IH]; [done|]. intros Hl.
  rewrite filter_cons_True by (apply Hl; left).
  rewrite IH; [done|]. intros x Hx. apply Hl. by right.
Qed.

Lemma stmt_lists_children (c : ast.node) :
  stmts_of c ++ loop_orelse c ⊆+ ast.iter_child_nodes c.
Proof.
  unfold stmts_of.
  destruct c as [i nm a b d r tp|i t b o|i t b o|i tg it b o|i cl fs]; simpl;
    rewrite ?app_nil_r.
  - apply submseteq_cons, submseteq_inserts_r. done.
  - by apply submseteq_cons.
  - by apply submseteq_cons.
  - by do 2 apply submseteq_cons.
  - apply submseteq_nil_l.
Qed.

Variable P : ast.node → Prop.
Context `{!∀ x, Decision (P x)}.

(** Lists of children that hold objects of a class [P] whose members are
    distinct objects hold distinct objects, over the whole walk. *)
Lemma listed_distinct (G : ast.node → list ast.node) (t : ast.node) :
  (∀ c, G c ⊆+ ast.iter_child_nodes c) →
  (∀ c s, c ∈ ast.walk t → s ∈ G c → P s) →
  NoDup (ast.obj_id <$> filter P (ast.walk t)) →
  NoDup (ast.obj_id <$> flat_map G (ast.walk t)).
Proof.
  intros Hsub HP Hnd.
  assert (flat_map G (ast.walk t) ⊆+ ast.walk t) as Hin.
  { etrans; [by apply flat_map_submseteq|].
    rewrite (walk_perm t) at 2. by apply submseteq_cons. }
  apply submseteq_Permutation in Hin as (k & Hk).
  rewrite Hk, filter_app, fmap_app in Hnd.
  apply NoDup_app in Hnd as (Hnd & _).
  rewrite filter_all in Hnd; [done|].
  intros s (c & Hc & Hs)%elem_of_flat_map. by apply (HP c).
Qed.

End DistinctStatements.

(** Statements of two different lists, or of the lists of two places of the
    walk, are different objects. *)
Lemma listed_apart {A B C} (f : B → C) (G1 G2 : A → list B) (w : list A)
    (c c' : A) (y y' : B) :
  NoDup (f <$> flat_map (λ x, G1 x ++ G2 x) w) →
  c ∈ w → c' ∈ w → y ∈ G1 c → y' ∈ G2 c' → f y ≠ f y'.
Proof.
  induction w as [|a w IH]; [by intros _ ?%elem_of_nil|]. simpl.
  rewrite !fmap_app. intros (Ha & Hdisj & Hw)%NoDup_app.
  apply NoDup_app in Ha as (_ & Ha & _).
  assert (∀ x z, x ∈ w → z ∈ G1 x ++ G2 x →
            f z ∈ f <$> flat_map (λ x, G1 x ++ G2 x) w) as Hrest.
  { intros x z Hx Hz. apply list_elem_of_fmap_2, elem_of_flat_map. eauto. }
  intros [->|Hc]%elem_of_cons [->|Hc']%elem_of_cons Hy Hy' Heq.
  - apply (Ha (f y)); [by apply list_elem_of_fmap_2|].
    rewrite Heq. by apply list_elem_of_fmap_2.
  - apply (Hdisj (f y)).
    + apply elem_of_app. left. by apply list_elem_of_fmap_2.
    + rewrite Heq. apply (Hrest c'); [done|]. apply elem_of_app. by right.
  - apply (Hdisj (f y')).
    + apply elem_of_app. right. by apply list_elem_of_fmap_2.
    + rewrite <- Heq. apply (Hrest c); [done|]. apply elem_of_app. by left.
  - by apply (IH Hw Hc Hc' Hy Hy').
Qed.

(** A name whose declarations all carry one label has that label. *)
Lemma lookup_nodes_unique (g : Digraph) (k v : string) :
  (k, v) ∈ decls g → (∀ v', (k, v') ∈ decls g → v' = v) →
  nodes g !! k = Some v.
Proof.
  intros Hin Hall. unfold nodes. rewrite nodes_of_list_to_map.
  apply elem_of_list_to_map_1'.
  - intros v' Hv'. rewrite elem_of_reverse in Hv'. symmetry.
    exact (Hall v' Hv').
  - rewrite elem_of_reverse. exact Hin.
Qed.

(** X4. When the statements are distinct objects, no node has two
    incoming edges: the heads of the edges are pairwise different, and two
    edges into one node leave the same node. *)
Theorem in_degree_at_most_one (dump : ast.node → string)
    (P : ast.node → Prop) `{!∀ x, Decision (P x)} (t : ast.node) :
  (∀ c s, c ∈ ast.walk t → s ∈ stmts_of c → P s) →
  NoDup (ast.obj_id <$> filter P (ast.walk t)) →
  let g := build dump t in
  NoDup (edges g).*2
  ∧ ∀ a a' b, (a, b) ∈ edges g → (a', b) ∈ edges g → a = a'.
Proof.
  intros HP Hnd g. subst g.
  assert (NoDup (edges (build dump t)).*2) as Hheads.
  { assert ((edges (build dump t)).*2
            = key <$> flat_map stmts_of (ast.walk t)) as ->.
    { rewrite build_edges. clear HP Hnd.
      induction (ast.walk t) as [|c w IH]; [done|].
      simpl. rewrite !fmap_app, IH. f_equal.
      by rewrite <- list_fmap_compose. }
    apply NoDup_keys. apply (listed_distinct P); try done.
    intros c. etrans; [|apply stmt_lists_children].
    by apply submseteq_inserts_r. }
  split; [done|]. intros a a' b Ha Ha'.
  by pose proof (NoDup_fmap_eq snd _ _ _ Hheads Ha Ha' eq_refl) as [= ->].
Qed.

Lemma in_degree_at_most_one_witness :
  let t := Examples.prog_nested in
  let g := build dump_model t in
  ((∀ c s, c ∈ ast.walk t → s ∈ stmts_of c → True)
   ∧ NoDup (ast.obj_id <$> filter (λ _, True) (ast.walk t)))
  ∧ NoDup (edges g).*2
  ∧ ∀ a a' b, (a, b) ∈ edges g → (a', b) ∈ edges g → a = a'.
Proof.
  intros t g.
  assert (NoDup (ast.obj_id <$> filter (λ _, True) (ast.walk t))) as Hnd
    by (apply (bool_decide_unpack _); vm_compute; exact I).
  split; [done|].
  exact (in_degree_at_most_one dump_model (λ _, True) t
           (λ _ _ _ _, I) Hnd).
Defined.

Lemma loop_orelse_children (c s : ast.node) :
  s ∈ loop_orelse c → s ∈ ast.iter_child_nodes c.
Proof.
  intros Hs. apply (elem_of_submseteq (stmts_of c ++ loop_orelse c));
    [|apply stmt_lists_children].
  apply elem_of_app. by right.
Qed.

(** X5. When the statements are distinct objects, a statement of a body
    that is no construct itself keeps the label [Statement: ] followed by
    its dump, and one of an else list the label [Else Statement: ] followed
    by its dump: no other declaration replaces it. *)
Theorem plain_statement_label (dump : ast.node → string)
    (P : ast.node → Prop) `{!∀ x, Decision (P x)} (t c s : ast.node) :
  id_sound t →
  (∀ c s, c ∈ ast.walk t → s ∈ stmts_of c → P s) →
  NoDup (ast.obj_id <$> filter P (ast.walk t)) →
  c ∈ ast.walk t → is_construct s = false →
  let g := build dump t in
  (s ∈ body_stmts c → nodes g !! key s = Some ("Statement: " +:+ dump s))
  ∧ (s ∈ else_stmts c →
       nodes g !! key s = Some ("Else Statement: " +:+ dump s)).
Proof.
  intros Hsound HP Hnd Hc Hplain g. subst g.
  assert (NoDup (ast.obj_id
                   <$> flat_map (λ x, body_stmts x ++ else_stmts x)
                         (ast.walk t))) as Hlists.
  { apply (listed_distinct P); try done.
    intros x. etrans; [|apply stmt_lists_children].
    by apply submseteq_inserts_r. }
  assert (∀ x y, x ∈ ast.walk t → y ∈ stmts_of x → y ∈ ast.walk t) as Hwalk.
  { intros x y Hx Hy. eapply walk_child; [done|].
    by apply (stmts_of_children dump). }
  assert (∀ x, x ∈ ast.walk t → is_construct x = true → key s = key x →
            s ∈ ast.walk t → False) as Hown.
  { intros x Hx Hcon Hk%key_inj Hs.
    rewrite (Hsound s x Hs Hx Hk) in Hplain. congruence. }
  split; intros Hs.
  - assert (s ∈ ast.walk t) as Hsw.
    { apply (Hwalk c); [done|]. apply elem_of_app. by left. }
    apply lookup_nodes_unique.
    + apply elem_of_decls. exists c. split; [done|].
      apply elem_of_decls_of. split; [|eauto 10].
      destruct c; try done. by apply elem_of_nil in Hs.
    + intros v' (x & Hx & Hin)%elem_of_decls.
      apply elem_of_decls_of in Hin
        as [Hcon [[Hk _]|[(y & Hy & Hk & ->)|(y & Hy & Hk & _)]]].
      * by destruct (Hown x).
      * assert (y ∈ ast.walk t) as Hyw.
        { apply (Hwalk x); [done|]. apply elem_of_app. by left. }
        apply key_inj in Hk. by rewrite (Hsound s y Hsw Hyw Hk).
      * apply key_inj in Hk.
        by destruct (listed_apart ast.obj_id body_stmts else_stmts _ c x s y
                       Hlists Hc Hx Hs Hy).
  - assert (s ∈ ast.walk t) as Hsw.
    { apply (Hwalk c); [done|]. apply elem_of_app. by right. }
    apply lookup_nodes_unique.
    + apply elem_of_decls. exists c. split; [done|].
      apply elem_of_decls_of. split; [|eauto 10].
      destruct c; try done; by apply elem_of_nil in Hs.
    + intros v' (x & Hx & Hin)%elem_of_decls.
      apply elem_of_decls_of in Hin
        as [Hcon [[Hk _]|[(y & Hy & Hk & _)|(y & Hy & Hk & ->)]]].
      * by destruct (Hown x).
      * apply key_inj in Hk. symmetry in Hk.
        by destruct (listed_apart ast.obj_id body_stmts else_stmts _ x c y s
                       Hlists Hx Hc Hy Hs).
      * assert (y ∈ ast.walk t) as Hyw.
        { apply (Hwalk x); [done|]. apply elem_of_app. by right. }
        apply key_inj in Hk. by rewrite (Hsound s y Hsw Hyw Hk).
Qed.

Lemma plain_statement_label_witness :
  let t := Examples.prog_nested in
  let g := build dump_model t in
  (id_sound t
   ∧ NoDup (ast.obj_id <$> filter (λ _, True) (ast.walk t))
   ∧ Examples.if_a ∈ ast.walk t
   ∧ is_construct (Examples.Pass 55) = false
   ∧ Examples.Pass 55 ∈ body_stmts Examples.if_a)
  ∧ nodes g !! "55" = Some "Statement: Pass()".
Proof.
  intros t g.
  assert (NoDup (ast.obj_id <$> filter (λ _, True) (ast.walk t))) as Hnd
    by (apply (bool_decide_unpack _); vm_compute; exact I).
  assert (id_sound t) as Hsound.
  { apply id_sound_NoDup, (bool_decide_unpack _). vm_compute. exact I. }
  assert (Examples.if_a ∈ ast.walk t) as Hc.
  { apply list_elem_of_In. vm_compute. tauto. }
  assert (Examples.Pass 55 ∈ body_stmts Examples.if_a) as Hs
    by (simpl; left).
  split; [done|].
  destruct (plain_statement_label dump_model (λ _, True) t Examples.if_a
              (Examples.Pass 55) Hsound (λ _ _ _ _, I) Hnd Hc eq_refl)
    as [Hbody _].
  exact (Hbody Hs).
Defined.

(** X6. The else list of a [while] or [for] is never iterated: when the
    statements are distinct objects, a statement of such a list that is no
    construct itself has no node in the graph and no edge ends at it. *)
Theorem loop_else_ignored (dump : ast.node → string)
    (P : ast.node → Prop) `{!∀ x, Decision (P x)} (t c s : ast.node) :
  id_sound t →
  (∀ c s, c ∈ ast.walk t → s ∈ stmts_of c ++ loop_orelse c → P s) →
  NoDup (ast.obj_id <$> filter P (ast.walk t)) →
  c ∈ ast.walk t → s ∈ loop_orelse c → is_construct s = false →
  let g := build dump t in
  (key s ∉ dom (nodes g)) ∧ (¬ has_incoming g (key s)).
Proof.
  intros Hsound HP Hnd Hc Hs Hplain g. subst g.
  assert (NoDup (ast.obj_id
                   <$> flat_map (λ x, stmts_of x ++ loop_orelse x)
                         (ast.walk t))) as Hlists.
  { apply (listed_distinct P); try done. apply stmt_lists_children. }
  assert (s ∈ ast.walk t) as Hsw.
  { eapply walk_child; [done | by apply loop_orelse_children]. }
  assert (key s ∉ dom (nodes (build dump t))) as Hnone.
  { intros (x & Hx & Hcon & [Hk|(y & Hy & Hk)])%node_provenance.
    - apply key_inj in Hk. rewrite (Hsound s x Hsw Hx Hk) in Hplain.
      congruence.
    - apply key_inj in Hk. symmetry in Hk.
      by destruct (listed_apart ast.obj_id stmts_of loop_orelse _ x c y s
                     Hlists Hx Hc Hy Hs). }
  split; [done|].
  intros (tl & (x & y & Hx & Hy & Heq)%elem_of_edges). simplify_eq.
  apply Hnone. replace (key s) with (key y) by done.
  by destruct (stmts_in_graph dump t x y Hx Hy).
Qed.

Lemma loop_else_ignored_witness :
  let t := MoreExamples.prog_while_else in
  let g := build dump_model t in
  (id_sound t
   ∧ NoDup (ast.obj_id <$> filter (λ _, True) (ast.walk t))
   ∧ MoreExamples.while_else ∈ ast.walk t
   ∧ Examples.Pass 74 ∈ loop_orelse MoreExamples.while_else
   ∧ is_construct (Examples.Pass 74) = false)
  ∧ ("74" ∉ dom (nodes g)) ∧ (¬ has_incoming g "74")
  ∧ "73" ∈ dom (nodes g).
Proof.
  intros t g.
  assert (NoDup (ast.obj_id <$> filter (λ _, True) (ast.walk t))) as Hnd
    by (apply (bool_decide_unpack _); vm_compute; exact I).
  assert (id_sound t) as Hsound.
  { apply id_sound_NoDup, (bool_decide_unpack _). vm_compute. exact I. }
  assert (MoreExamples.while_else ∈ ast.walk t) as Hc.
  { apply list_elem_of_In. vm_compute. tauto. }
  assert (Examples.Pass 74 ∈ loop_orelse MoreExamples.while_else) as Hs
    by (simpl; left).
  split; [done|].
  destruct (loop_else_ignored dump_model (λ _, True) t
              MoreExamples.while_else (Examples.Pass 74) Hsound
              (λ _ _ _ _, I) Hnd Hc Hs eq_refl) as [Hnone Hin].
  split; [exact Hnone|]. split; [exact Hin|].
  apply elem_of_dom. vm_compute. eauto.
Defined.

(** * Further properties of [main] and of the pointer report *)

Section MainFacts.

Variable dump : ast.node → string.
Variable parse : string → exn + ast.node.
Variable render : Digraph → string → IO unit.

Lemma main_after_parse objgraph_snapshot exec_and_plot argv w input_file
    code t :
  argv !! 1%nat = Some input_file → files w !! input_file = Some code →
  parse code = inr t →
  main dump parse render objgraph_snapshot exec_and_plot argv w
  = (save_cfg_image render (build dump t) "cfg";;
     visualize_memory_allocation objgraph_snapshot "memory_allocation.png";;
     illustrate_pointers exec_and_plot code "pointers.png") w.
Proof.
  intros Harg Hfile Hparse. assert (¬ (length argv < 2)%nat) as Hlen.
  { apply lookup_lt_Some in Harg. lia. }
  unfold main, mbind, io_bind, generate_cfg.
  rewrite bool_decide_eq_false_2 by done. rewrite Harg. simpl.
  unfold os_path_isfile.
  rewrite bool_decide_eq_true_2 by (left; by rewrite Hfile).
  simpl. unfold load_code. by rewrite Hfile, Hparse.
Qed.

End MainFacts.

(** X8. The analysed text is executed last, and it is the very text that
    was parsed: when the argument is a file whose text parses and the
    renderer and the memory snapshot return, both images are produced and
    their two lines printed, in this order, before the execution starts,
    and an exception raised while the text runs or is plotted, a
    [SystemExit] of the text included, ends [main] as it is. *)
Theorem main_executes_last (dump : ast.node → string)
    (parse : string → exn + ast.node)
    (render : Digraph → string → IO unit)
    (objgraph_snapshot : string → IO unit)
    (exec_and_plot : string → string → IO unit)
    (argv : list string) (w w1 w2 w3 : World) (input_file code : string)
    (t : ast.node) (e : exn) :
  argv !! 1%nat = Some input_file → files w !! input_file = Some code →
  parse code = inr t →
  render (set_format "png" (build dump t)) "cfg" w = (inr tt, w1) →
  objgraph_snapshot "memory_allocation.png"
    (print "Control-Flow Graph saved as cfg" w1).2 = (inr tt, w2) →
  exec_and_plot code "pointers.png"
    (print "Memory Allocation image saved as memory_allocation.png" w2).2
  = (inl e, w3) →
  main dump parse render objgraph_snapshot exec_and_plot argv w = (inl e, w3).
Proof.
  intros Harg Hfile Hparse Hrender Hsnap Hplot.
  rewrite (main_after_parse _ _ _ _ _ _ _ _ _ t Harg Hfile Hparse).
  unfold save_cfg_image, visualize_memory_allocation, illustrate_pointers,
    mbind, io_bind.
  change ("Control-Flow Graph saved as " +:+ "cfg")
    with "Control-Flow Graph saved as cfg".
  change ("Memory Allocation image saved as " +:+ "memory_allocation.png")
    with "Memory Allocation image saved as memory_allocation.png".
  rewrite Hrender. unfold print in *. simpl in *.
  rewrite Hsnap. simpl. by rewrite Hplot.
Qed.

Lemma main_executes_last_witness :
  let w := {| files := {["exit.py" := "import sys; sys.exit(3)"]};
              unreadable := ∅; stdout := [] |} in
  let run :=
    main dump_model MoreExamples.parse_exit Examples.render_png
      Examples.writes MoreExamples.exec_exits ["analyze_code.py"; "exit.py"]
      w in
  run.1 = inl (SystemExit 3)
  ∧ exit_status run.1 = 3
  ∧ stdout run.2
    = ["Control-Flow Graph saved as cfg";
       "Memory Allocation image saved as memory_allocation.png"]
  ∧ files run.2 !! "cfg.png" = Some "image"
  ∧ files run.2 !! "memory_allocation.png" = Some "image"
  ∧ files run.2 !! "pointers.png" = None.
Proof.
  intros w run.
  pose proof (main_executes_last dump_model MoreExamples.parse_exit
                Examples.render_png Examples.writes MoreExamples.exec_exits
                ["analyze_code.py"; "exit.py"] w _ _ _ "exit.py"
                "import sys; sys.exit(3)" MoreExamples.prog_exit
                (SystemExit 3) eq_refl eq_refl eq_refl eq_refl eq_refl
                eq_refl) as Hrun.
  subst run. rewrite Hrun.
  split; [reflexivity|]. split; [reflexivity|]. split; [reflexivity|].
  split; [vm_compute; reflexivity|]. split; vm_compute; reflexivity.
Defined.

(** X9. A stage that raises ends the run with its exception: when the
    renderer raises, neither the memory snapshot nor the execution of the
    analysed text takes place, and when the snapshot raises the text is not
    executed; the result is the same whatever the later collaborators are. *)
Theorem main_stops_at_failure (dump : ast.node → string)
    (parse : string → exn + ast.node)
    (render : Digraph → string → IO unit)
    (argv : list string) (w : World) (input_file code : string)
    (t : ast.node) :
  argv !! 1%nat = Some input_file → files w !! input_file = Some code →
  parse code = inr t →
  (∀ e w1,
     render (set_format "png" (build dump t)) "cfg" w = (inl e, w1) →
     ∀ objgraph_snapshot exec_and_plot,
       main dump parse render objgraph_snapshot exec_and_plot argv w
       = (inl e, w1))
  ∧ (∀ w1 objgraph_snapshot e w2,
       render (set_format "png" (build dump t)) "cfg" w = (inr tt, w1) →
       objgraph_snapshot "memory_allocation.png"
         (print "Control-Flow Graph saved as cfg" w1).2 = (inl e, w2) →
       ∀ exec_and_plot,
         main dump parse render objgraph_snapshot exec_and_plot argv w
         = (inl e, w2)).
Proof.
  intros Harg Hfile Hparse. split.
  - intros e w1 Hrender snap plot.
    rewrite (main_after_parse _ _ _ _ _ _ _ _ _ t Harg Hfile Hparse).
    unfold save_cfg_image, mbind, io_bind. by rewrite Hrender.
  - intros w1 snap e w2 Hrender Hsnap plot.
    rewrite (main_after_parse _ _ _ _ _ _ _ _ _ t Harg Hfile Hparse).
    unfold save_cfg_image, visualize_memory_allocation, mbind, io_bind.
    change ("Control-Flow Graph saved as " +:+ "cfg")
      with "Control-Flow Graph saved as cfg".
    rewrite Hrender. unfold print in *. simpl in *. by rewrite Hsnap.
Qed.

Lemma main_stops_at_failure_witness :
  let w := {| files := {["prog.py" := "x; pass"]}; unreadable := ∅;
             stdout := [] |} in
  main dump_model Examples.parse_one MoreExamples.render_fails
    Examples.writes Examples.plot ["analyze_code.py"; "prog.py"] w
  = (inl (OSError "dot not found"), w)
  ∧ main dump_model Examples.parse_one Examples.render_png
      MoreExamples.snapshot_fails Examples.plot
      ["analyze_code.py"; "prog.py"] w
    = (inl (OSError "objgraph"),
       {| files := <["cfg.png" := "image"]> (files w);
          unreadable := ∅;
          stdout := ["Control-Flow Graph saved as cfg"] |}).
Proof.
  intros w.
  destruct (main_stops_at_failure dump_model Examples.parse_one
              MoreExamples.render_fails ["analyze_code.py"; "prog.py"] w
              "prog.py" "x; pass" Examples.prog_plain eq_refl eq_refl eq_refl)
    as [Hrender _].
  destruct (main_stops_at_failure dump_model Examples.parse_one
              Examples.render_png ["analyze_code.py"; "prog.py"] w
              "prog.py" "x; pass" Examples.prog_plain eq_refl eq_refl eq_refl)
    as [_ Hsnap].
  split.
  - exact (Hrender _ _ eq_refl Examples.writes Examples.plot).
  - exact (Hsnap _ MoreExamples.snapshot_fails _ _ eq_refl eq_refl
             Examples.plot).
Defined.

Section PointerFacts.

Variable value : Type.
Variable id_of : value → Z.
Variable getrefcount : value → Z.

Lemma append_nonempty (s r : string) (c : Ascii.ascii) :
  s +:+ String c r ≠ "".
Proof. by destruct s. Qed.

Lemma pointer_line_nonempty (var : string) (val : value) :
  pointer_line value id_of getrefcount var val ≠ "".
Proof. unfold pointer_line. apply append_nonempty. Qed.

Lemma concat_empty (sep : string) (l : list string) :
  (∀ x, x ∈ l → x ≠ "") → String.concat sep l = "" → l = [].
Proof.
  destruct l as [|x [|y l]]; [done|..]; intros Hne; simpl.
  - intros ->. by destruct (Hne "" ltac:(left)).
  - destruct x; [by destruct (Hne "" ltac:(left))|done].
Qed.

Lemma filter_nil_Forall {A} (P : A → Prop) `{!∀ x, Decision (P x)}
    (l : list A) :
  filter P l = [] ↔ ∀ x, x ∈ l → ¬ P x.
Proof.
  induction l as [|a l IH]; [split; [by intros _ ? ?%elem_of_nil|done]|].
  destruct (decide (P a)) as [Ha|Ha].
  - rewrite filter_cons_True by done. split; [done|].
    intros Hall. destruct (Hall a); [left | done].
  - rewrite filter_cons_False, IH by done. split.
    + by intros Hl x [->|Hx]%elem_of_cons; [|apply Hl].
    + intros Hl x Hx. apply Hl. by right.
Qed.

End PointerFacts.

(** X10. The report of [illustrate_pointers] has a line for a variable
    exactly when its name does not start with two underscores, so an entry
    such as [__builtins__] changes nothing wherever it stands, and the text
    is empty exactly when every name of the environment starts with two
    underscores. *)
Theorem pointer_report (value : Type) (id_of getrefcount : value → Z)
    (exec_env : list (string * value)) :
  (∀ line, line ∈ pointer_info value id_of getrefcount exec_env ↔
     ∃ var val, (var, val) ∈ exec_env ∧ startswith_dunder var = false
                ∧ line = pointer_line value id_of getrefcount var val)
  ∧ (∀ l1 l2 var val, exec_env = l1 ++ (var, val) :: l2 →
       startswith_dunder var = true →
       pointer_info value id_of getrefcount exec_env
       = pointer_info value id_of getrefcount (l1 ++ l2))
  ∧ (pointer_text value id_of getrefcount exec_env = "" ↔
     ∀ var val, (var, val) ∈ exec_env → startswith_dunder var = true).
Proof.
  split; [|split].
  - intros line. unfold pointer_info.
    rewrite list_elem_of_fmap. split.
    + intros ([var val] & -> & [Hd Hin]%list_elem_of_filter).
      by exists var, val.
    + intros (var & val & Hin & Hd & ->). exists (var, val).
      split; [done|]. by apply list_elem_of_filter.
  - intros l1 l2 var val -> Hd. unfold pointer_info.
    rewrite !filter_app, filter_cons_False; [done|].
    simpl. by rewrite Hd.
  - unfold pointer_text. split.
    + intros Hempty%concat_empty.
      * unfold pointer_info in Hempty. apply fmap_nil_inv in Hempty.
        intros var val Hin.
        pose proof (proj1 (filter_nil_Forall _ _) Hempty (var, val) Hin)
          as Hnot.
        simpl in Hnot. by destruct (startswith_dunder var).
      * intros x ([var val] & -> & _)%list_elem_of_fmap.
        apply pointer_line_nonempty.
    + intros Hall. unfold pointer_info.
      assert (filter (λ item : string * value,
                        startswith_dunder item.1 = false) exec_env = [])
        as ->; [|done].
      apply filter_nil_Forall. intros [var val] Hin. simpl.
      by rewrite (Hall var val Hin).
Qed.

Lemma pointer_report_witness :
  let report := pointer_info (Z * Z) fst snd MoreExamples.env_xy in
  (MoreExamples.env_xy = [] ++ ("__builtins__", (500, 4))
                               :: [("x", (501, 3)); ("y", (501, 3))]
   ∧ startswith_dunder "__builtins__" = true)
  ∧ report = pointer_info (Z * Z) fst snd [("x", (501, 3)); ("y", (501, 3))]
  ∧ report = ["x: ID 501, Ref Count 3"; "y: ID 501, Ref Count 3"]
  ∧ "y: ID 501, Ref Count 3" ∈ report.
Proof.
  intros report.
  destruct (pointer_report (Z * Z) fst snd MoreExamples.env_xy)
    as (Hline & Hdunder & _).
  split; [done|]. split.
  - exact (Hdunder [] _ "__builtins__" (500, 4) eq_refl eq_refl).
  - split; [vm_compute; reflexivity|].
    apply Hline. exists "y", (501, 3). split; [|done].
    unfold MoreExamples.env_xy. do 2 right. left.
Defined.

(** * Counting the nodes of any graph *)

Lemma distinct_sub (P : ast.node → Prop) `{!∀ x, Decision (P x)}
    (l w : list ast.node) :
  l ⊆+ w → (∀ x, x ∈ l → P x) →
  NoDup (ast.obj_id <$> filter P w) → NoDup (ast.obj_id <$> l).
Proof.
  intros (k & Hk)%submseteq_Permutation HP Hnd.
  rewrite Hk, filter_app, fmap_app in Hnd.
  apply NoDup_app in Hnd as (Hnd & _). by rewrite filter_all in Hnd.
Qed.

Lemma listed_in_walk (t : ast.node) :
  flat_map stmts_of (ast.walk t) ⊆+ ast.walk t.
Proof.
  etrans; [apply (flat_map_submseteq _ ast.iter_child_nodes)|].
  - intros c. etrans; [|apply stmt_lists_children].
    by apply submseteq_inserts_r.
  - rewrite (walk_perm t) at 2. by apply submseteq_cons.
Qed.

(** X11. When the constructs and the statements of their lists are
    distinct objects, the graph has one node per construct and one more per
    listed statement that is no construct itself, and one edge per listed
    statement. *)
Theorem node_count (dump : ast.node → string)
    (P : ast.node → Prop) `{!∀ x, Decision (P x)} (t : ast.node) :
  id_sound t →
  (∀ c, c ∈ ast.walk t → is_construct c = true → P c) →
  (∀ c s, c ∈ ast.walk t → s ∈ stmts_of c → P s) →
  NoDup (ast.obj_id <$> filter P (ast.walk t)) →
  let g := build dump t in
  let listed := flat_map stmts_of (ast.walk t) in
  size (nodes g)
  = (length (constructs t)
     + length (filter (λ s, is_construct s = false) listed))%nat
  ∧ length (edges g) = length listed.
Proof.
  intros Hsound HPc HPs Hnd g listed. subst g. split.
  - assert (∀ s, s ∈ listed ↔ ∃ c, c ∈ ast.walk t ∧ s ∈ stmts_of c)
      as Hlisted by (intros s; apply elem_of_flat_map).
    assert (∀ s, s ∈ listed → s ∈ ast.walk t) as Hlw.
    { intros s Hs. by apply (elem_of_submseteq _ _ _ Hs), listed_in_walk. }
    assert (dom (nodes (build dump t))
            = list_to_set
                (key <$> constructs t
                         ++ filter (λ s, is_construct s = false) listed))
      as Hdom.
    { apply set_eq. intros k.
      rewrite elem_of_list_to_set, fmap_app, elem_of_app.
      rewrite !list_elem_of_fmap. split.
      - intros (c & Hc & Hcon & [->|(s & Hs & ->)])%node_provenance.
        + left. exists c. split; [done|].
          by apply (proj2 (constructs_elem dump t c)).
        + destruct (is_construct s) eqn:Hscon.
          * left. exists s. split; [done|].
            apply (proj2 (constructs_elem dump t s)).
            split; [|done]. apply Hlw, Hlisted. eauto.
          * right. exists s. split; [done|].
            rewrite list_elem_of_filter. split; [done|]. apply Hlisted. eauto.
      - intros [(c & -> & [Hc Hcon]%(constructs_elem dump))
               |(s & -> & [_ Hs]%list_elem_of_filter)].
        + by apply construct_in_graph.
        + apply Hlisted in Hs as (c & Hc & Hs).
          by destruct (stmts_in_graph dump t c s Hc Hs). }
    rewrite <- size_dom, Hdom, size_list_to_set.
    { by rewrite length_fmap, length_app. }
    apply NoDup_keys. rewrite fmap_app. apply NoDup_app. split; [|split].
    + apply (distinct_sub P _ (ast.walk t)); [| |done].
      * apply sublist_submseteq, sublist_filter.
      * intros c [? ?]%(constructs_elem dump). auto.
    + intros i (c & -> & [Hc Hcon]%(constructs_elem dump))%list_elem_of_fmap
        (s & Heq & [Hplain Hs]%list_elem_of_filter)%list_elem_of_fmap.
      rewrite (Hsound c s Hc (Hlw s Hs) Heq) in Hcon. congruence.
    + apply (distinct_sub P _ (ast.walk t)); [| |done].
      * etrans; [apply sublist_submseteq, sublist_filter|].
        apply listed_in_walk.
      * intros s [_ (c & Hc & Hs)%Hlisted]%list_elem_of_filter.
        by apply (HPs c).
  - rewrite build_edges. unfold listed. clear.
    induction (ast.walk t) as [|c w IH]; [done|]. simpl.
    by rewrite !length_app, length_fmap, IH.
Qed.

Lemma node_count_witness :
  let t := Examples.prog_nested in
  let g := build dump_model t in
  (id_sound t ∧ NoDup (ast.obj_id <$> filter (λ _, True) (ast.walk t)))
  ∧ length (constructs t) = 3%nat
  ∧ size (nodes g) = 5%nat ∧ length (edges g) = 4%nat.
Proof.
  intros t g.
  assert (NoDup (ast.obj_id <$> filter (λ _, True) (ast.walk t))) as Hnd
    by (apply (bool_decide_unpack _); vm_compute; exact I).
  assert (id_sound t) as Hsound.
  { apply id_sound_NoDup, (bool_decide_unpack _). vm_compute. exact I. }
  split; [done|]. split; [vm_compute; reflexivity|].
  exact (node_count dump_model (λ _, True) t Hsound (λ _ _ _, I)
           (λ _ _ _ _, I) Hnd).
Defined.

(** * The incoming edges of a node *)

(** A construct that sits directly in an object of another class (the
    module, a class, a [with]) is no statement of any construct's lists
    when the constructs and those statements are distinct objects, so no
    edge ends at its node. *)
Lemma outer_construct_no_incoming (dump : ast.node → string)
    (P : ast.node → Prop) `{!∀ x, Decision (P x)} (t x c : ast.node) :
  (∀ c, c ∈ ast.walk t → is_construct c = true → P c) →
  (∀ c s, c ∈ ast.walk t → s ∈ stmts_of c → P s) →
  NoDup (ast.obj_id <$> filter P (ast.walk t)) →
  x ∈ ast.walk t → is_construct x = false →
  c ∈ ast.iter_child_nodes x → is_construct c = true →
  ¬ has_incoming (build dump t) (key c).
Proof.
  intros HPc HPs Hnd Hx Hxplain Hc Hcon.
  set (outer := λ y : ast.node,
         if is_construct y then []
         else filter (λ z, is_construct z = true) (ast.iter_child_nodes y)).
  assert (NoDup (ast.obj_id
                   <$> flat_map (λ y, outer y ++ stmts_of y) (ast.walk t)))
    as Hlists.
  { apply (listed_distinct P); [| |done].
    - intros y. unfold outer. destruct (is_construct y) eqn:Hy; simpl.
      + etrans; [|apply stmt_lists_children]. by apply submseteq_inserts_r.
      + assert (stmts_of y = []) as -> by by destruct y.
        rewrite app_nil_r. apply sublist_submseteq, sublist_filter.
    - intros y s Hy [Hs|Hs]%elem_of_app; [|by apply (HPs y)].
      unfold outer in Hs. destruct (is_construct y); [by apply elem_of_nil in Hs|].
      apply list_elem_of_filter in Hs as [Hscon Hs].
      apply HPc; [|done]. by eapply walk_child. }
  intros (tl & (y & s & Hy & Hs & Heq)%elem_of_edges). simplify_eq.
  assert (c ∈ outer x) as Hout.
  { unfold outer. rewrite Hxplain. by apply list_elem_of_filter. }
  apply (listed_apart ast.obj_id outer stmts_of _ x y c s Hlists Hx Hy
           Hout Hs).
  by apply key_inj.
Qed.

(** C2, as stated, fails: the conditional of [if c: a; b else: d] at module
    level gets a node, no function is involved, and no edge ends at that
    node. *)
Lemma C2_counterexample :
  ¬ incoming_edge_invariant Examples.prog_if
      (build dump_model Examples.prog_if).
Proof.
  intros Hinv. destruct (Hinv "21") as (tl & Hedge).
  - apply elem_of_dom. vm_compute. eauto.
  - intros (f & Hf & Hfun & _). vm_compute in Hf.
    apply list_elem_of_singleton in Hf as ->. discriminate Hfun.
  - vm_compute in Hedge.
    repeat (apply elem_of_cons in Hedge as [Hedge|Hedge]; [discriminate|]).
    by apply elem_of_nil in Hedge.
Qed.

(** C2, amended. A node has an incoming edge exactly when its syntax
    object is an immediate body or else statement of a construct the walk
    reaches, and then one edge comes from that construct; every other node
    is the own node of a construct.  When the constructs and the statements
    of their lists are distinct objects, a construct that sits directly in
    the module, or in any object that is no construct itself, has its node
    and no incoming edge. *)
Theorem C2_incoming_edges (dump : ast.node → string) (t : ast.node) :
  let g := build dump t in
  (∀ c s, c ∈ ast.walk t → s ∈ stmts_of c →
     key s ∈ dom (nodes g) ∧ (key c, key s) ∈ edges g)
  ∧ (∀ k, has_incoming g k ↔
       ∃ c s, c ∈ ast.walk t ∧ is_construct c = true
              ∧ s ∈ stmts_of c ∧ k = key s)
  ∧ (∀ k, k ∈ dom (nodes g) →
       has_incoming g k
       ∨ ∃ c, c ∈ ast.walk t ∧ is_construct c = true ∧ k = key c)
  ∧ (∀ (P : ast.node → Prop) (P_dec : ∀ x, Decision (P x)),
       (∀ c, c ∈ ast.walk t → is_construct c = true → P c) →
       (∀ c s, c ∈ ast.walk t → s ∈ stmts_of c → P s) →
       NoDup (ast.obj_id <$> filter P (ast.walk t)) →
       ∀ x c, x ∈ ast.walk t → is_construct x = false →
         c ∈ ast.iter_child_nodes x → is_construct c = true →
         key c ∈ dom (nodes g) ∧ (¬ has_incoming g (key c))).
Proof.
  intros g.
  assert (∀ k, has_incoming g k ↔
            ∃ c s, c ∈ ast.walk t ∧ is_construct c = true
                   ∧ s ∈ stmts_of c ∧ k = key s) as Hin.
  { intros k. split.
    - intros (tl & (c & s & Hc & Hs & Heq)%elem_of_edges). simplify_eq.
      exists c, s. split; [done|]. split; [|done].
      destruct c; try done. by apply elem_of_nil in Hs.
    - intros (c & s & Hc & _ & Hs & ->). exists (key c).
      by apply stmts_in_graph. }
  split; [intros c s Hc Hs; by apply stmts_in_graph|]. split; [done|].
  split.
  - intros k (c & Hc & Hcon & [->|(s & Hs & ->)])%node_provenance.
    + right. by exists c.
    + left. apply Hin. by exists c, s.
  - intros P P_dec HPc HPs Hnd x c Hx Hxplain Hc Hcon. split.
    + apply construct_in_graph; [by eapply walk_child | done].
    + by apply (outer_construct_no_incoming dump P t x c).
Qed.

Lemma C2_witness :
  let t := Examples.prog_nested in
  let g := build dump_model t in
  (Examples.while_nested ∈ ast.walk t
   ∧ Examples.if_a ∈ stmts_of Examples.while_nested
   ∧ NoDup (ast.obj_id <$> filter (λ _, True) (ast.walk t))
   ∧ t ∈ ast.walk t ∧ is_construct t = false
   ∧ Examples.while_nested ∈ ast.iter_child_nodes t
   ∧ is_construct Examples.while_nested = true)
  ∧ ("53" ∈ dom (nodes g) ∧ ("51", "53") ∈ edges g)
  ∧ has_incoming g "53"
  ∧ ("51" ∈ dom (nodes g) →
       has_incoming g "51"
       ∨ ∃ c, c ∈ ast.walk t ∧ is_construct c = true ∧ "51" = key c)
  ∧ ("51" ∈ dom (nodes g) ∧ (¬ has_incoming g "51")).
Proof.
  intros t g.
  assert (Examples.while_nested ∈ ast.walk t) as Hc.
  { apply list_elem_of_In. vm_compute. tauto. }
  assert (Examples.if_a ∈ stmts_of Examples.while_nested) as Hs.
  { vm_compute. left. }
  assert (NoDup (ast.obj_id <$> filter (λ _, True) (ast.walk t))) as Hnd
    by (apply (bool_decide_unpack _); vm_compute; exact I).
  assert (t ∈ ast.walk t) as Ht.
  { apply list_elem_of_In. vm_compute. tauto. }
  assert (Examples.while_nested ∈ ast.iter_child_nodes t) as Htop.
  { simpl. left. }
  destruct (C2_incoming_edges dump_model t) as (Hedge & Hin & Hnode & Htoplevel).
  split; [done|]. split; [exact (Hedge _ _ Hc Hs)|].
  split; [|split; [exact (Hnode "51")|]].
  - apply Hin. exists Examples.while_nested, Examples.if_a. done.
  - exact (Htoplevel (λ _, True) _ (λ _ _ _, I) (λ _ _ _ _, I) Hnd
             t Examples.while_nested Ht eq_refl Htop eq_refl).
Defined.
